(** * NomsBlockStore: the chunk-store facade of package nbs

    A shallow embedding of [NomsBlockStore] (Put, Get, Root, Rebase, Commit,
    updateManifest, GetChunkLocations).  The mutable fields guarded by
    [nbs.mu] become a record that is threaded through every call together
    with the state of the manifest manager and a log of the calls made on
    it.  The mutexes, the statistics and the context argument carry no data
    and are left out. *)

From Stdlib.Strings Require Import Byte.
From stdpp Require Import gmap list sorting strings.

Open Scope N_scope.

(** ** Go values *)

(** [hash.Hash] and [addr] are 20-byte arrays; [addr(h)] and [hash.Hash(a)]
    are conversions between the two names of that type.  An array is read
    as the big-endian number it spells, so that the order on addresses is
    the order on numbers. *)
Abbreviation Hash := N (only parsing).
Abbreviation addr := N (only parsing).

(** [a.Prefix()]: the first eight of the twenty bytes. *)
Definition Prefix (a : addr) : N := N.shiftr a 96.

(** A [[]byte]: [None] is the nil slice, [Some l] a slice that holds the
    bytes [l] ([Some []] is the empty slice that is not nil).  The facade
    tells the two apart: [data != nil] is its test for a hit. *)
Abbreviation slice := (option (list byte)) (only parsing).

(** The bytes of a slice; the nil slice has none. *)
Definition bytes (d : slice) : list byte := default [] d.

(** [len(data)] *)
Definition len (d : slice) : N := N.of_nat (length (bytes d)).

Definition uint64_wrap (n : N) : N := n mod 2 ^ 64.

(** The errors the facade tells apart: its three sentinels, the error of
    a failed Put, and whatever a collaborator reports. *)
Inductive error :=
  | errLastRootMismatch
  | errOptimisticLockFailedRoot
  | errOptimisticLockFailedTables
  | errAddChunkFailed
  | errIO (code : N).

#[export] Instance error_eq_dec : EqDecision error.
Proof. solve_decision. Defined.

(** ** chunks.Chunk *)

(** A chunk: its hash [r] and its payload [data], [c.Hash()] and
    [c.Data()]. *)
Record Chunk := mkChunk { r : Hash; data : slice }.

Section Chunks.
(** The repository's content hash. *)
Variable hash_Of : list byte → Hash.

(** [chunks.NewChunk]: the hash is taken over the bytes, the slice is kept
    as it was handed in. *)
Definition NewChunk (d : slice) : Chunk := mkChunk (hash_Of (bytes d)) d.
Definition EmptyChunk : Chunk := NewChunk (Some []).
End Chunks.

Definition NewChunkWithHash (h : Hash) (d : slice) : Chunk := mkChunk h d.

(** ** Memtable *)

(** Modelled from the spec: the memtable ([memTable], whose code is not
    among the sources).  A write buffer bounded by a byte budget: [addChunk] answers
    whether the chunk fit, a hash table serves [get], insertion order is
    kept, and [count] is the number of distinct chunks. *)
Record memTable := mkMemTable {
  chunks : gmap N (option (list byte));
  order : list addr;
  maxData : N;
  totalData : N;
}.

(** Modelled from the spec: [newMemTable], an empty buffer with the given
    byte budget. *)
Definition newMemTable (memTableSize : N) : memTable :=
  mkMemTable ∅ [] memTableSize 0.

(** Modelled from the spec: [memTable.addChunk], true iff the chunk fits
    in what is left of the budget; a chunk that fits is stored under its
    address, its slice as it is (a nil slice stays nil). *)
Definition mt_addChunk (m : memTable) (h : addr) (d : slice) : bool * memTable :=
  if decide (maxData m < totalData m + len d) then (false, m)
  else (true, mkMemTable (<[h := d]> (chunks m)) (order m ++ [h])
                         (maxData m) (totalData m + len d)).

(** Modelled from the spec: [memTable.get], the hash-table lookup: the
    slice stored under the address, and nil for an address the memtable
    does not hold. *)
Definition mt_get (m : memTable) (h : addr) : slice * option error :=
  (default None (chunks m !! h), None).

(** Modelled from the spec: [memTable.count], the number of distinct chunks. *)
Definition mt_count (m : memTable) : N * option error :=
  (N.of_nat (size (chunks m)), None).

(** ** Table files and chunk sources *)

Record Range := mkRange { Offset : N; Length : N }.

(** One chunk record of a table file, in ordinal order: its address, the
    length of the record, and what reading it gives (the bytes, or an error
    when the record is damaged). *)
Record tableEntry := mkEntry {
  te_addr : addr;
  te_length : N;
  te_read : list byte + error;
}.

(** Modelled from the spec: the parsed index of a table file
    ([tableIndex], whose code is not among the sources).  Offsets are the prefix sums
    of the lengths; [lookupOrdinal] gives the ordinal of an address and
    [chunkCount] when the table does not hold it. *)
Abbreviation tableIndex := (list tableEntry) (only parsing).

(** Modelled from the spec: [chunkCount], the number of chunk records. *)
Definition chunkCount (ti : tableIndex) : N := N.of_nat (length ti).

(** Modelled from the spec: [lookupOrdinal], the search of the index for an
    address (a linear scan here, a binary search on the prefixes there). *)
Fixpoint lookupOrdinal_from (ti : tableIndex) (a : addr) (ord : nat) : nat :=
  match ti with
  | [] => ord
  | e :: ti' => if decide (te_addr e = a) then ord
                else lookupOrdinal_from ti' a (S ord)
  end.

Definition lookupOrdinal (ti : tableIndex) (a : addr) : N :=
  N.of_nat (lookupOrdinal_from ti a 0).

(** Modelled from the spec: the lengths vector of a table, by ordinal. *)
Definition lengths (ti : tableIndex) (ord : N) : N :=
  default 0 (te_length <$> ti !! N.to_nat ord).

(** Modelled from the spec: the offsets of a table, the prefix sums of its
    lengths. *)
Definition offsets (ti : tableIndex) (ord : N) : N :=
  foldr N.add 0 (te_length <$> take (N.to_nat ord) ti).

(** Modelled from the spec: [tableReader.get], the record of the address
    if the index lists it, nil if not. *)
Definition ti_get (ti : tableIndex) (a : addr) : slice * option error :=
  match ti !! N.to_nat (lookupOrdinal ti a) with
  | Some e => match te_read e with
              | inl d => (Some d, None)
              | inr err => (None, Some err)
              end
  | None => (None, None)
  end.

(** [getRecord]: a request, with the prefix of its address cached. *)
Record getRecord := mkGetRecord { gr_a : addr; gr_prefix : N }.

Record offsetRec := mkOffsetRec { or_a : addr; ordinal : N; offset : N }.

Definition offsetRec_le (x y : offsetRec) : Prop := offset x <= offset y.

#[export] Instance offsetRec_le_dec : RelDecision offsetRec_le.
Proof. intros x y. unfold offsetRec_le. apply _. Defined.

(** Modelled from the spec: [findOffsets] (its code is not among the
    sources).  Each request the table holds gives one [(address, ordinal,
    offset)] record; the records are sorted by offset. *)
Definition findOffsets (ti : tableIndex) (reqs : list getRecord) : list offsetRec :=
  merge_sort offsetRec_le
    (omap (λ req,
             let ord := lookupOrdinal ti (gr_a req) in
             if decide (ord < chunkCount ti)
             then Some (mkOffsetRec (gr_a req) ord (offsets ti ord))
             else None) reqs).

(** The kinds of chunk source the facade tells apart in
    [GetChunkLocations]: an mmap-backed table reader, the adapter around a
    remote table reader (whose [index()] may fail), and any other source,
    here the in-memory table that [Prepend] makes out of a memtable. *)
Inductive chunkSource :=
  | mmapTableReader (h : addr) (ti : tableIndex)
  | chunkSourceAdapter (h : addr) (index : tableIndex + error)
  | memTableSource (m : memTable).

Abbreviation chunkSources := (list chunkSource) (only parsing).

(** Modelled from the spec: [chunkSource.get].  An adapter whose index
    cannot be loaded cannot serve a read. *)
Definition cs_get (cs : chunkSource) (a : addr) : slice * option error :=
  match cs with
  | mmapTableReader _ ti => ti_get ti a
  | chunkSourceAdapter _ (inl ti) => ti_get ti a
  | chunkSourceAdapter _ (inr e) => (None, Some e)
  | memTableSource m => mt_get m a
  end.

(** ** Table set *)

(** Modelled from the spec: the table set ([tableSet], whose code is not
    among the sources), the read stack [novel ++ upstream] probed newest-first, a read
    stopping at the first hit. *)
Record tableSet := mkTableSet { novel : chunkSources; upstream_ts : chunkSources }.

Definition newTableSet : tableSet := mkTableSet [] [].

(** Modelled from the spec: the probe of one layer of the stack, in
    order, up to the first error or the first hit. *)
Fixpoint css_get (css : chunkSources) (a : addr) : slice * option error :=
  match css with
  | [] => (None, None)
  | haver :: css' =>
      match cs_get haver a with
      | (_, Some err) => (None, Some err)
      | (Some d, None) => (Some d, None)
      | (None, None) => css_get css' a
      end
  end.

(** Modelled from the spec: [tableSet.get], novel tables before upstream
    tables. *)
Definition ts_get (ts : tableSet) (a : addr) : slice * option error :=
  match css_get (novel ts) a with
  | (_, Some err) => (None, Some err)
  | (Some d, None) => (Some d, None)
  | (None, None) => css_get (upstream_ts ts) a
  end.

(** Modelled from the spec: [tableSet.Prepend], a new stack with the
    sealed memtable as its newest novel table. *)
Definition Prepend (ts : tableSet) (m : memTable) : tableSet :=
  mkTableSet (memTableSource m :: novel ts) (upstream_ts ts).

(** Modelled from the spec: [tableSet.Novel], the number of novel tables. *)
Definition Novel (ts : tableSet) : N := N.of_nat (length (novel ts)).

(** ** Manifest *)

Record tableSpec := mkTableSpec { name : addr; spec_chunkCount : N }.

Record manifestContents := mkManifest {
  vers : string;
  lock : addr;
  root : Hash;
  specs : list tableSpec;
}.

#[export] Instance tableSpec_eq_dec : EqDecision tableSpec.
Proof. solve_decision. Defined.

#[export] Instance manifestContents_eq_dec : EqDecision manifestContents.
Proof. solve_decision. Defined.

Definition preflushChunkCount : N := 8.

(** ** The collaborators of the facade *)

(** The calls on the manifest manager and the conjoiner, as the facade
    makes them. *)
Inductive Event :=
  | EvFetch
  | EvUpdate (lastLock : addr) (newContents : manifestContents)
  | EvConjoin (upstream : manifestContents)
  | EvLockForUpdate
  | EvUnlockForUpdate.

(** What [NomsBlockStore] holds in [mm], [p] and [c], and the methods of
    the table set that reach the persister: their code is outside this
    file, so the facade is defined over any implementation.  [W] is the
    state these collaborators keep outside the store: the manifest, the
    table files, the in-process manifest cache and locks. *)
Class Collaborators (W : Type) := {
  hash_Of : list byte → Hash;
  generateLockHash : Hash → list tableSpec → addr;
  mm_Fetch : W → (bool * manifestContents * option error) * W;
  mm_Update : addr → manifestContents → W → (manifestContents * option error) * W;
  mm_updateWillFail : addr → W → manifestContents * bool;
  mm_LockForUpdate : W → W;
  mm_UnlockForUpdate : W → option error * W;
  ConjoinRequired : tableSet → bool;
  Conjoin : manifestContents → W → (manifestContents * option error) * W;
  ts_Rebase : tableSet → list tableSpec → W → (tableSet * option error) * W;
  ts_Flatten : tableSet → tableSet * option error;
  ts_ToSpecs : tableSet → W → (list tableSpec * option error) * W;
}.

(** ** The store *)

Record NomsBlockStore := mkNBS {
  mt : option memTable;
  tables : tableSet;
  upstream : manifestContents;
  mtSize : N;
  putCount : N;
}.

Definition set_mt (m : option memTable) (n : NomsBlockStore) : NomsBlockStore :=
  mkNBS m (tables n) (upstream n) (mtSize n) (putCount n).

Definition set_tables (ts : tableSet) (n : NomsBlockStore) : NomsBlockStore :=
  mkNBS (mt n) ts (upstream n) (mtSize n) (putCount n).

Definition set_upstream (u : manifestContents) (n : NomsBlockStore) : NomsBlockStore :=
  mkNBS (mt n) (tables n) u (mtSize n) (putCount n).

Definition set_putCount (c : N) (n : NomsBlockStore) : NomsBlockStore :=
  mkNBS (mt n) (tables n) (upstream n) (mtSize n) c.

(** The store, the world of its collaborators, and the calls made so far. *)
Record St (W : Type) := mkSt {
  nbs : NomsBlockStore;
  world : W;
  log : list Event;
}.
Arguments mkSt {W}.
Arguments nbs {W}.
Arguments world {W}.
Arguments log {W}.

(** A method of the store reads and writes this state. *)
Definition M (W A : Type) : Type := St W → A * St W.

Definition ret {W A} (a : A) : M W A := λ st, (a, st).

Definition bind {W A B} (m : M W A) (k : A → M W B) : M W B :=
  λ st, let '(a, st') := m st in k a st'.

Declare Scope nbs_scope.
Delimit Scope nbs_scope with nbs.
Notation "x ← y ; z" := (bind y (λ x : _, z))
  (at level 20, y at level 100, z at level 200, only parsing) : nbs_scope.
Notation "' x ← y ; z" := (bind y (λ x : _, z))
  (at level 20, x pattern, y at level 100, z at level 200, only parsing) : nbs_scope.
Notation "x ;; z" := (bind x (λ _, z))
  (at level 100, z at level 200, only parsing, right associativity) : nbs_scope.

Section Facade.
Context {W : Type} `{Collaborators W}.
Local Open Scope nbs_scope.

Definition get_nbs : M W NomsBlockStore := λ st, (nbs st, st).

Definition modify_nbs (f : NomsBlockStore → NomsBlockStore) : M W unit :=
  λ st, (tt, mkSt (f (nbs st)) (world st) (log st)).

(** A call on a collaborator. *)
Definition io {A} (f : W → A * W) : M W A :=
  λ st, let '(a, w) := f (world st) in (a, mkSt (nbs st) w (log st)).

(** A call on the manifest manager or the conjoiner, noted in the log. *)
Definition call {A} (ev : Event) (f : W → A * W) : M W A :=
  λ st, let '(a, w) := f (world st) in (a, mkSt (nbs st) w (log st ++ [ev])).

(** *** Put *)

(** [nbs.addChunk]: the add on the current memtable (made on demand) and,
    when that memtable rejects the chunk, the rotation and the one retry. *)
Definition addChunk (h : addr) (d : slice) : M W bool :=
  n ← get_nbs;
  let m := match mt n with
           | None => newMemTable (mtSize n)
           | Some m => m
           end in
  let '(ok, m') := mt_addChunk m h d in
  if ok then
    modify_nbs (set_mt (Some m'));; ret true
  else
    modify_nbs (λ n, set_tables (Prepend (tables n) m') n);;
    let '(ok2, m2) := mt_addChunk (newMemTable (mtSize n)) h d in
    modify_nbs (set_mt (Some m2));;
    ret ok2.

(** [nbs.Put] *)
Definition Put (c : Chunk) : M W (option error) :=
  let a := r c in
  success ← addChunk a (data c);
  if success then
    modify_nbs (λ n, set_putCount (uint64_wrap (putCount n + 1)) n);;
    ret None
  else ret (Some errAddChunkFailed).

(** *** Get *)

(** [nbs.Get]: the memtable first, then the table set; it leaves the
    store as it is.  Each layer is passed when the slice it hands back is
    nil ([data != nil] is the test), also when the layer holds the address
    with a nil slice. *)
Definition Get (n : NomsBlockStore) (h : Hash) : Chunk * option error :=
  let a := h in
  let '(d, err) :=
    match mt n with
    | Some m =>
        match mt_get m a with
        | (_, Some err) => (None, Some err)
        | (d, None) => (d, None)
        end
    | None => (None, None)
    end in
  match err, d with
  | Some e, _ => (EmptyChunk hash_Of, Some e)
  | None, Some d => (NewChunkWithHash h (Some d), None)
  | None, None =>
      match ts_get (tables n) a with
      | (_, Some e) => (EmptyChunk hash_Of, Some e)
      | (Some d, None) => (NewChunkWithHash h (Some d), None)
      | (None, None) => (EmptyChunk hash_Of, None)
      end
  end.

(** *** Root and Rebase *)

(** [nbs.Root] *)
Definition Root (n : NomsBlockStore) : Hash * option error :=
  (root (upstream n), None).

(** [nbs.tables, err = nbs.tables.Rebase(ctx, specs, nbs.stats)] *)
Definition rebase_tables (sp : list tableSpec) : M W (option error) :=
  n ← get_nbs;
  '(ts, err) ← io (ts_Rebase (tables n) sp);
  modify_nbs (set_tables ts);;
  ret err.

(** [nbs.Rebase] *)
Definition Rebase : M W (option error) :=
  '(exists_, contents, err) ← call EvFetch mm_Fetch;
  match err with
  | Some e => ret (Some e)
  | None =>
      if (exists_ : bool) then
        modify_nbs (set_upstream contents);;
        rebase_tables (specs contents)
      else ret None
  end.

(** *** Commit *)

(** The closure [anyPossiblyNovelChunks] of Commit. *)
Definition anyPossiblyNovelChunks (n : NomsBlockStore) : bool :=
  bool_decide (mt n ≠ None) || bool_decide (0 < Novel (tables n)).

(** The closure of [updateManifest] that reconciles with the contents
    some other writer installed. *)
Definition handleOptimisticLockFailure (last : Hash) (up : manifestContents)
  : M W (option error) :=
  modify_nbs (set_upstream up);;
  err ← rebase_tables (specs up);
  match err with
  | Some e => ret (Some e)
  | None =>
      if decide (last ≠ root up) then ret (Some errOptimisticLockFailedRoot)
      else ret (Some errOptimisticLockFailedTables)
  end.

(** [if nbs.mt != nil { cnt, err := nbs.mt.count(); ...; if cnt > limit
    { nbs.tables = nbs.tables.Prepend(ctx, nbs.mt, nbs.stats); nbs.mt = nil } }],
    the flush that Commit does with [preflushChunkCount] and
    [updateManifest] with zero. *)
Definition flush_memtable_above (limit : N) : M W (option error) :=
  n ← get_nbs;
  match mt n with
  | None => ret None
  | Some m =>
      match mt_count m with
      | (_, Some e) => ret (Some e)
      | (cnt, None) =>
          if decide (limit < cnt) then
            modify_nbs (λ n, set_mt None (set_tables (Prepend (tables n) m) n));;
            ret None
          else ret None
      end
  end.

(** [nbs.updateManifest] *)
Definition updateManifest (current last : Hash) : M W (option error) :=
  n ← get_nbs;
  if decide (root (upstream n) ≠ last) then ret (Some errLastRootMismatch)
  else
    '(cached, doomed) ← io (λ w, (mm_updateWillFail (lock (upstream n)) w, w));
    if (doomed : bool) then handleOptimisticLockFailure last cached
    else
      err ← flush_memtable_above 0;
      match err with
      | Some e => ret (Some e)
      | None =>
          n ← get_nbs;
          if ConjoinRequired (tables n) then
            '(up, err) ← call (EvConjoin (upstream n)) (Conjoin (upstream n));
            modify_nbs (set_upstream up);;
            match err with
            | Some e => ret (Some e)
            | None =>
                err ← rebase_tables (specs up);
                match err with
                | Some e => ret (Some e)
                | None => ret (Some errOptimisticLockFailedTables)
                end
            end
          else
            '(sp, err) ← io (ts_ToSpecs (tables n));
            match err with
            | Some e => ret (Some e)
            | None =>
                let newContents :=
                  mkManifest (vers (upstream n)) (generateLockHash current sp)
                             current sp in
                '(up, err) ← call (EvUpdate (lock (upstream n)) newContents)
                                  (mm_Update (lock (upstream n)) newContents);
                match err with
                | Some e => ret (Some e)
                | None =>
                    if decide (lock newContents ≠ lock up) then
                      handleOptimisticLockFailure last up
                    else
                      modify_nbs (set_upstream newContents);;
                      n ← get_nbs;
                      let '(ts, err) := ts_Flatten (tables n) in
                      modify_nbs (set_tables ts);;
                      match err with
                      | Some _ => ret None
                      | None => ret None
                      end
                end
            end
      end.

(** The [for] loop of Commit.  It has no bound in the source; here it
    gives up ([None]) after [fuel] rounds of [errOptimisticLockFailedTables]. *)
Fixpoint commit_loop (fuel : nat) (current last : Hash) (st : St W)
  : option ((bool * option error) * St W) :=
  match fuel with
  | O => None
  | S fuel' =>
      match updateManifest current last st with
      | (None, st') => Some ((true, None), st')
      | (Some err, st') =>
          if decide (err = errOptimisticLockFailedRoot ∨ err = errLastRootMismatch)
          then Some ((false, None), st')
          else if decide (err ≠ errOptimisticLockFailedTables)
          then Some ((false, Some err), st')
          else commit_loop fuel' current last st'
      end
  end.

(** The deferred [UnlockForUpdate]: its error replaces a nil [err]. *)
Definition unlock_deferred (res : bool * option error) : M W (bool * option error) :=
  unlockErr ← call EvUnlockForUpdate mm_UnlockForUpdate;
  match res with
  | (success, None) => ret (success, unlockErr)
  | (success, Some e) => ret (success, Some e)
  end.

(** [nbs.Commit]: the fast path, the pre-flush, the update lock, the
    loop, and the deferred unlock. *)
Definition Commit (fuel : nat) (current last : Hash) (st : St W)
  : option ((bool * option error) * St W) :=
  if negb (anyPossiblyNovelChunks (nbs st)) && bool_decide (current = last) then
    match Rebase st with
    | (Some err, st') => Some ((false, Some err), st')
    | (None, st') => Some ((true, None), st')
    end
  else
    match flush_memtable_above preflushChunkCount st with
    | (Some err, st1) => Some ((false, Some err), st1)
    | (None, st1) =>
        let '(_, st2) := call EvLockForUpdate (λ w, (tt, mm_LockForUpdate w)) st1 in
        match commit_loop fuel current last st2 with
        | None => None
        | Some (res, st3) => Some (unlock_deferred res st3)
        end
    end.

(** The state in which Commit enters its loop: the memtable pre-flushed
    when it holds more than [preflushChunkCount] chunks, then the update
    lock taken. *)
Definition commit_entry (st : St W) : St W :=
  let st1 := snd (flush_memtable_above preflushChunkCount st) in
  mkSt (nbs st1) (mm_LockForUpdate (world st1)) (log st1 ++ [EvLockForUpdate]).

(** In [st] an [updateManifest current last] gets as far as the manifest
    [Update]: the root matches, the cached manifest does not doom the
    update, no conjoin is required and [ToSpecs] succeeds; [Update] is
    called with [newContents] and answers [up] without an error, which
    leaves the state [st_cas]. *)
Definition reaches_update (current last : Hash) (st : St W)
    (newContents up : manifestContents) (st_cas : St W) : Prop :=
  root (upstream (nbs st)) = last ∧
  snd (mm_updateWillFail (lock (upstream (nbs st))) (world st)) = false ∧
  let st1 := snd (flush_memtable_above 0 st) in
  ConjoinRequired (tables (nbs st1)) = false ∧
  ∃ sp w2 w3,
    ts_ToSpecs (tables (nbs st1)) (world st1) = ((sp, None), w2) ∧
    newContents = mkManifest (vers (upstream (nbs st))) (generateLockHash current sp)
                             current sp ∧
    mm_Update (lock (upstream (nbs st))) newContents w2 = ((up, None), w3) ∧
    st_cas = mkSt (nbs st1) w3
                  (log st ++ [EvUpdate (lock (upstream (nbs st))) newContents]).


End Facade.

(** ** GetChunkLocations *)

Definition getRecord_le (x y : getRecord) : Prop := gr_prefix x <= gr_prefix y.

#[export] Instance getRecord_le_dec : RelDecision getRecord_le.
Proof. intros x y. unfold getRecord_le. apply _. Defined.

(** [toGetRecords]: one record per hash of the set, sorted by prefix. *)
Definition toGetRecords (hashes : gset N) : list getRecord :=
  merge_sort getRecord_le ((λ a, mkGetRecord a (Prefix a)) <$> elements hashes).

(** What the closure [f] of GetChunkLocations reads and writes: the
    caller's hash set, the captured [gr] and the map being built. *)
Record locState := mkLoc {
  loc_hashes : gset N;
  loc_gr : list getRecord;
  loc_ranges : gmap N (gmap N Range);
}.

Inductive locStop := LocErr (e : error) | LocPanic.

(** The body of [for _, cs := range css]. *)
Definition probe_source (cs : chunkSource) (s : locState) : locState + locStop :=
  match cs with
  | mmapTableReader h ti =>
      let offsetRecSlice := findOffsets ti (loc_gr s) in
      if decide (0 < length offsetRecSlice)%nat then
        let y := default ∅ (loc_ranges s !! h) in
        let '(y, hashes) :=
          foldl (λ '(y, hashes) offsetRec,
                   let ord := ordinal offsetRec in
                   let length := lengths ti ord in
                   let a := or_a offsetRec in
                   (<[a := mkRange (offset offsetRec) length]> y, hashes ∖ {[a]}))
                (y, loc_hashes s) offsetRecSlice in
        inl (mkLoc hashes (toGetRecords hashes) (<[h := y]> (loc_ranges s)))
      else inl s
  | chunkSourceAdapter h index =>
      let y := default ∅ (loc_ranges s !! h) in
      match index with
      | inr err => inr (LocErr err)
      | inl tableIndex =>
          let '(foundHashes, y) :=
            foldl (λ '(foundHashes, y) a,
                     let ord := lookupOrdinal tableIndex a in
                     if decide (ord < chunkCount tableIndex) then
                       (foundHashes ++ [a],
                        <[a := mkRange (offsets tableIndex ord) (lengths tableIndex ord)]> y)
                     else (foundHashes, y))
                  ([], y) (elements (loc_hashes s)) in
          let hashes := foldl (λ hashes a, hashes ∖ {[a]}) (loc_hashes s) foundHashes in
          inl (mkLoc hashes (loc_gr s) (<[h := y]> (loc_ranges s)))
      end
  | memTableSource _ => inr LocPanic
  end.

(** The closure [f]; a source that stops the loop leaves what the earlier
    sources did to the state. *)
Fixpoint probe_sources (css : chunkSources) (s : locState) : option locStop * locState :=
  match css with
  | [] => (None, s)
  | cs :: css' =>
      match probe_source cs s with
      | inl s' => probe_sources css' s'
      | inr stop => (Some stop, s)
      end
  end.

(** The result, and the caller's hash set as the call leaves it. *)
Definition GetChunkLocations (n : NomsBlockStore) (hashes : gset N)
  : (gmap N (gmap N Range) + locStop) * gset N :=
  let s := mkLoc hashes (toGetRecords hashes) ∅ in
  match probe_sources (upstream_ts (tables n)) s with
  | (Some stop, s1) => (inr stop, loc_hashes s1)
  | (None, s1) =>
      match probe_sources (novel (tables n)) s1 with
      | (Some stop, s2) => (inr stop, loc_hashes s2)
      | (None, s2) => (inl (loc_ranges s2), loc_hashes s2)
      end
  end.

(** Table [t] of the returned map gives a range for chunk [h]. *)
Definition assigned (ranges : gmap N (gmap N Range)) (t h : addr) : Prop :=
  ∃ y, ranges !! t = Some y ∧ is_Some (y !! h).

Definition at_most_one_table (ranges : gmap N (gmap N Range)) : Prop :=
  ∀ t1 t2 h, assigned ranges t1 h → assigned ranges t2 h → t1 = t2.

Definition is_mmap (cs : chunkSource) : Prop :=
  match cs with mmapTableReader _ _ => True | _ => False end.

Definition is_adapter (cs : chunkSource) : Prop :=
  match cs with chunkSourceAdapter _ _ => True | _ => False end.

(** No mmap-backed reader is probed after an adapter. *)
Fixpoint adapters_last (css : chunkSources) : Prop :=
  match css with
  | [] => True
  | cs :: css' => (is_adapter cs → Forall (λ cs', ¬ is_mmap cs') css') ∧ adapters_last css'
  end.

(** A hash with a range is out of the caller's set, and has its range in one table. *)
Definition loc_inv (s : locState) : Prop :=
  (∀ t h, assigned (loc_ranges s) t h → h ∉ loc_hashes s) ∧
  at_most_one_table (loc_ranges s).

(** The request records ask only for hashes still in the caller's set. *)
Definition loc_fresh (s : locState) : Prop :=
  ∀ req, req ∈ loc_gr s → gr_a req ∈ loc_hashes s.

(** ** A single-process world *)

(** Modelled from the spec: a manifest manager, table-set methods and
    conjoiner for one process over one backing store (their code is not
    among the sources).  The manifest
    is one mutable record; [Update] is a compare-and-set on its lock that
    answers with the winning contents; the in-process cache remembers the
    manifest last seen; [rebaseTables] reopens the tables a spec list names and
    keeps the novel ones; [Flatten] merges the non-empty novel tables into
    upstream; [ToSpecs] names every table with its chunk count. *)
Module Local.

Record World := mkWorld {
  manifest : option manifestContents;
  cache : option manifestContents;
  tablefiles : gmap N tableIndex;
  updating : bool;
}.

Definition noManifest : manifestContents := mkManifest "" 0 0 [].

(** A stand-in for the content hash: the bytes read as a base-257 number. *)
Definition hashOf (d : list byte) : Hash :=
  foldl (λ acc b, acc * 257 + Byte.to_N b + 1) 0 d.

(** A stand-in for [generateLockHash], a number made of the root and the
    specs. *)
Definition lockHash (rt : Hash) (sp : list tableSpec) : addr :=
  foldl (λ acc s, acc * 65537 + name s * 257 + spec_chunkCount s + 1) (rt + 1) sp.

(** Modelled from the spec: [Fetch], the manifest if there is one; the
    cache remembers it. *)
Definition Fetch (w : World) : (bool * manifestContents * option error) * World :=
  match manifest w with
  | Some c => ((true, c, None), mkWorld (manifest w) (Some c) (tablefiles w) (updating w))
  | None => ((false, noManifest, None), w)
  end.

(** Modelled from the spec: [Update], the compare-and-set on the lock; it
    answers with the contents that won. *)
Definition Update (lastLock : addr) (newContents : manifestContents) (w : World)
  : (manifestContents * option error) * World :=
  let current := default noManifest (manifest w) in
  if decide (lock current = lastLock) then
    ((newContents, None),
     mkWorld (Some newContents) (Some newContents) (tablefiles w) (updating w))
  else
    ((current, None), mkWorld (manifest w) (Some current) (tablefiles w) (updating w)).

(** Modelled from the spec: [updateWillFail], doomed when the cached
    manifest has another lock. *)
Definition updateWillFail (lastLock : addr) (w : World) : manifestContents * bool :=
  match cache w with
  | Some c => (c, bool_decide (lock c ≠ lastLock))
  | None => (noManifest, false)
  end.

(** Modelled from the spec: the in-process update lock. *)
Definition LockForUpdate (w : World) : World :=
  mkWorld (manifest w) (cache w) (tablefiles w) true.

Definition UnlockForUpdate (w : World) : option error * World :=
  (None, mkWorld (manifest w) (cache w) (tablefiles w) false).

Definition maxTables : nat := 256.

(** Modelled from the spec: [ConjoinRequired], more upstream tables than
    [maxTables]. *)
Definition conjoinRequired (ts : tableSet) : bool :=
  bool_decide (maxTables < length (upstream_ts ts))%nat.

(** The conjoiner only reports what the manifest holds: the table sets of
    the examples stay far below [maxTables]. *)
Definition conjoin (up : manifestContents) (w : World)
  : (manifestContents * option error) * World :=
  ((default up (manifest w), None), w).

Fixpoint open_tables (files : gmap N tableIndex) (sp : list tableSpec)
  : chunkSources * option error :=
  match sp with
  | [] => ([], None)
  | s :: sp' =>
      match files !! name s with
      | None => ([], Some (errIO 2))
      | Some ti =>
          match open_tables files sp' with
          | (css, None) => (mmapTableReader (name s) ti :: css, None)
          | (_, Some e) => ([], Some e)
          end
      end
  end.

(** Modelled from the spec: [tableSet.Rebase], upstream reopened from the
    specs, novel tables kept. *)
Definition rebaseTables (ts : tableSet) (sp : list tableSpec) (w : World)
  : (tableSet * option error) * World :=
  match open_tables (tablefiles w) sp with
  | (css, None) => ((mkTableSet (novel ts) css, None), w)
  | (_, Some e) => ((newTableSet, Some e), w)
  end.

Definition cs_count (cs : chunkSource) : N :=
  match cs with
  | mmapTableReader _ ti => chunkCount ti
  | chunkSourceAdapter _ (inl ti) => chunkCount ti
  | chunkSourceAdapter _ (inr _) => 0
  | memTableSource m => fst (mt_count m)
  end.

(** Modelled from the spec: [tableSet.Flatten], the non-empty novel tables
    merged into upstream.  [flatten_err] is the error that counting a novel
    table's chunks raises, if any. *)
Definition Flatten (flatten_err : option error) (ts : tableSet)
  : tableSet * option error :=
  match flatten_err with
  | Some e => (newTableSet, Some e)
  | None =>
      (mkTableSet [] (filter (λ cs, 0 < cs_count cs) (novel ts) ++ upstream_ts ts), None)
  end.

Definition cs_name (cs : chunkSource) : addr :=
  match cs with
  | mmapTableReader h _ => h
  | chunkSourceAdapter h _ => h
  | memTableSource m => foldl (λ acc a, acc * 3 + a + 1) 0 (order m)
  end.

(** Modelled from the spec: [tableSet.ToSpecs], name and chunk count of
    every table, novel ones first. *)
Definition ToSpecs (ts : tableSet) (w : World)
  : (list tableSpec * option error) * World :=
  (((λ cs, mkTableSpec (cs_name cs) (cs_count cs)) <$> (novel ts ++ upstream_ts ts), None), w).

Definition collaborators (flatten_err : option error) : Collaborators World := {|
  hash_Of := hashOf;
  generateLockHash := lockHash;
  mm_Fetch := Fetch;
  mm_Update := Update;
  mm_updateWillFail := updateWillFail;
  mm_LockForUpdate := LockForUpdate;
  mm_UnlockForUpdate := UnlockForUpdate;
  ConjoinRequired := conjoinRequired;
  Conjoin := conjoin;
  ts_Rebase := rebaseTables;
  ts_Flatten := Flatten flatten_err;
  ts_ToSpecs := ToSpecs;
|}.

(** The collaborators of the examples: [sound], whose [Flatten] never
    fails, and [failingFlatten], whose [Flatten] always does. *)
Definition sound : Collaborators World := collaborators None.
Definition failingFlatten : Collaborators World := collaborators (Some (errIO 7)).

Definition emptyWorld : World := mkWorld None None ∅ false.

(** [newNomsBlockStore] on a world without a manifest. *)
Definition freshStore (memTableSize : N) : NomsBlockStore :=
  mkNBS None newTableSet (mkManifest "7.18" 0 0 []) memTableSize 0.

Definition freshSt (memTableSize : N) : St World :=
  mkSt (freshStore memTableSize) emptyWorld [].


(** *** Stores used as examples *)

Definition twoBytes : list byte := [x01; x02].
Definition fourBytes : list byte := [x0a; x0b; x0c; x0d].
Definition threeBytes : list byte := [x05; x06; x07].

(** A fresh store with a budget of four bytes after [Put] of a two-byte chunk. *)
Definition onePut : St World :=
  snd (Put (NewChunk hashOf (Some twoBytes)) (freshSt 4)).

(** The same store with its memtable exactly at the budget. *)
Definition fullMemtable : St World :=
  snd (Put (NewChunk hashOf (Some fourBytes)) (freshSt 4)).

(** A store opened before another process wrote the manifest [theirs]. *)
Definition theirs (rt : Hash) : manifestContents :=
  mkManifest "7.18" 999 rt [].

Definition behind (rt : Hash) (st : St World) : St World :=
  mkSt (nbs st) (mkWorld (Some (theirs rt)) None ∅ false) (log st).



(** A table set in which the adapter of a remote table comes before an
    mmap-backed table, both holding the chunk with address 5. *)
Definition entry5 : tableEntry := mkEntry 5 10 (inl twoBytes).

Definition mixedSources : NomsBlockStore :=
  mkNBS None
    (mkTableSet [] [chunkSourceAdapter 100 (inl [entry5]); mmapTableReader 200 [entry5]])
    (mkManifest "7.18" 0 0 []) 4 0.
End Local.

(** ** Absence *)

Definition ti_absent (ti : tableIndex) (a : addr) : Prop := a ∉ te_addr <$> ti.

(** A source does not hold [a]: its index is readable and does not list it. *)
Definition cs_absent (a : addr) (cs : chunkSource) : Prop :=
  match cs with
  | mmapTableReader _ ti => ti_absent ti a
  | chunkSourceAdapter _ (inl ti) => ti_absent ti a
  | chunkSourceAdapter _ (inr _) => False
  | memTableSource m => chunks m !! a = None
  end.

Definition mt_absent (a : addr) (m : option memTable) : Prop :=
  match m with
  | Some m => chunks m !! a = None
  | None => True
  end.

(** [a] is in none of the layers: memtable, novel tables, upstream tables. *)
Definition absent (n : NomsBlockStore) (a : addr) : Prop :=
  mt_absent a (mt n) ∧
  Forall (cs_absent a) (novel (tables n)) ∧
  Forall (cs_absent a) (upstream_ts (tables n)).

(** The memtable a Put works on: the store's, or a new one when it has none. *)
Definition current_memtable (n : NomsBlockStore) : memTable :=
  match mt n with
  | None => newMemTable (mtSize n)
  | Some m => m
  end.

(** ** The rest of the facade *)

(** *** Has and HasMany *)

(** Modelled from the spec: [memTable.has], the hash-table lookup without
    the data. *)
Definition mt_has (m : memTable) (h : addr) : bool * option error :=
  (bool_decide (is_Some (chunks m !! h)), None).

(** Modelled from the spec: [chunkSource.has], whether the index lists the
    address.  An adapter whose index cannot be loaded cannot tell. *)
Definition cs_has (cs : chunkSource) (a : addr) : bool * option error :=
  match cs with
  | mmapTableReader _ ti => (bool_decide (lookupOrdinal ti a < chunkCount ti), None)
  | chunkSourceAdapter _ (inl ti) =>
      (bool_decide (lookupOrdinal ti a < chunkCount ti), None)
  | chunkSourceAdapter _ (inr e) => (false, Some e)
  | memTableSource m => mt_has m a
  end.

(** Modelled from the spec: the probe of one layer for [has], in order, up
    to the first error or the first hit. *)
Fixpoint css_has (css : chunkSources) (a : addr) : bool * option error :=
  match css with
  | [] => (false, None)
  | haver :: css' =>
      match cs_has haver a with
      | (_, Some err) => (false, Some err)
      | (true, None) => (true, None)
      | (false, None) => css_has css' a
      end
  end.

(** Modelled from the spec: [tableSet.has], novel tables before upstream
    tables. *)
Definition ts_has (ts : tableSet) (a : addr) : bool * option error :=
  match css_has (novel ts) a with
  | (_, Some err) => (false, Some err)
  | (true, None) => (true, None)
  | (false, None) => css_has (upstream_ts ts) a
  end.

(** [nbs.Has] *)
Definition Has (n : NomsBlockStore) (h : Hash) : bool * option error :=
  let a := h in
  let '(has, err) :=
    match mt n with
    | Some m =>
        match mt_has m a with
        | (_, Some err) => (false, Some err)
        | (has, None) => (has, None)
        end
    | None => (false, None)
    end in
  match err with
  | Some e => (false, Some e)
  | None =>
      if has then (true, None)
      else match ts_has (tables n) a with
           | (_, Some e) => (false, Some e)
           | (has, None) => (has, None)
           end
  end.

(** [hasRecord]: a request, the place it had when the set was listed, and
    whether some layer has answered for it. *)
Record hasRecord := mkHasRecord {
  hr_a : addr;
  hr_prefix : N;
  hr_order : nat;
  has : bool;
}.

Definition set_has (r : hasRecord) : hasRecord :=
  mkHasRecord (hr_a r) (hr_prefix r) (hr_order r) true.

Definition hasRecord_le (x y : hasRecord) : Prop := hr_prefix x <= hr_prefix y.

#[export] Instance hasRecord_le_dec : RelDecision hasRecord_le.
Proof. intros x y. unfold hasRecord_le. apply _. Defined.

(** [toHasRecords]: one record per hash of the set, numbered as listed,
    sorted by prefix.  Go lists a map in no fixed order; [elements] gives
    one of the orders. *)
Definition toHasRecords (hashes : gset N) : list hasRecord :=
  merge_sort hasRecord_le
    (imap (λ idx a, mkHasRecord a (Prefix a) idx false) (elements hashes)).

(** Modelled from the spec: [hasMany] of one layer member: every request
    not yet answered is looked up and marked when found; the answer tells
    whether a request is still open.  [probe] is the member's [has]. *)
Fixpoint hasMany_with (probe : addr → bool * option error) (addrs : list hasRecord)
  : list hasRecord * bool * option error :=
  match addrs with
  | [] => ([], false, None)
  | r :: addrs' =>
      if has r then
        let '(addrs'', remaining, err) := hasMany_with probe addrs' in
        (r :: addrs'', remaining, err)
      else
        match probe (hr_a r) with
        | (_, Some err) => (r :: addrs', false, Some err)
        | (true, None) =>
            let '(addrs'', remaining, err) := hasMany_with probe addrs' in
            (set_has r :: addrs'', remaining, err)
        | (false, None) =>
            let '(addrs'', remaining, err) := hasMany_with probe addrs' in
            (r :: addrs'', match err with None => true | Some _ => false end, err)
        end
  end.

(** Modelled from the spec: [memTable.hasMany]. *)
Definition mt_hasMany (m : memTable) (addrs : list hasRecord)
  : list hasRecord * bool * option error :=
  hasMany_with (mt_has m) addrs.

(** Modelled from the spec: [hasMany] over one layer of the stack: members
    are asked in order for as long as a request is open. *)
Fixpoint css_hasMany (css : chunkSources) (addrs : list hasRecord)
  : list hasRecord * bool * option error :=
  match css with
  | [] => (addrs, true, None)
  | haver :: css' =>
      match hasMany_with (cs_has haver) addrs with
      | (addrs', _, Some err) => (addrs', false, Some err)
      | (addrs', false, None) => (addrs', false, None)
      | (addrs', true, None) => css_hasMany css' addrs'
      end
  end.

(** Modelled from the spec: [tableSet.hasMany], novel tables before upstream
    tables. *)
Definition ts_hasMany (ts : tableSet) (addrs : list hasRecord)
  : list hasRecord * bool * option error :=
  match css_hasMany (novel ts) addrs with
  | (addrs', _, Some err) => (addrs', false, Some err)
  | (addrs', false, None) => (addrs', false, None)
  | (addrs', true, None) => css_hasMany (upstream_ts ts) addrs'
  end.

(** [nbs.HasMany]: the set of the hashes no layer has. *)
Definition HasMany (n : NomsBlockStore) (hashes : gset N) : option (gset N) * option error :=
  let reqs := toHasRecords hashes in
  let '(reqs, remaining, err) :=
    match mt n with
    | Some m => mt_hasMany m reqs
    | None => (reqs, true, None)
    end in
  match err with
  | Some e => (None, Some e)
  | None =>
      let '(reqs, err) :=
        if remaining then
          let '(reqs', _, err) := ts_hasMany (tables n) reqs in (reqs', err)
        else (reqs, None) in
      match err with
      | Some e => (None, Some e)
      | None =>
          (Some (foldl (λ absent r, if has r then absent else absent ∪ {[hr_a r]})
                       ∅ reqs), None)
      end
  end.

(** *** Opening a store, and adding table files to the manifest *)

Definition defaultMemTableSize : N := 2 ^ 20 * 128.

(** The zero value [manifestContents{}]. *)
Definition zeroManifest : manifestContents := mkManifest "" 0 0 [].

Section Manifest.
Context {W : Type} `{Collaborators W}.
Local Open Scope nbs_scope.

(** [newNomsBlockStore], run in the world [w]: the error, if any (the
    caller then gets no store), next to the store and the world as the
    call leaves them. *)
Definition newNomsBlockStore (nbfVerStr : string) (memTableSize : N) (w : W)
  : option error * St W :=
  let memTableSize :=
    if decide (memTableSize = 0) then defaultMemTableSize else memTableSize in
  let nbs0 := mkNBS None newTableSet (mkManifest nbfVerStr 0 0 []) memTableSize 0 in
  ('(exists_, contents, err) ← call EvFetch mm_Fetch;
   match err with
   | Some e => ret (Some e)
   | None =>
       if (exists_ : bool) then
         modify_nbs (set_upstream contents);;
         rebase_tables (specs contents)
       else ret None
   end) (mkSt nbs0 w []).

(** [for h, count := range updates]: Go lists the entries of a map in an
    order of its choosing, which may differ from one run to the next.
    [ranged updates listing]: [listing] is one of the orders in which the
    range statement can go through the map [updates]. *)
Definition ranged (updates : gmap N N) (listing : list (N * N)) : Prop :=
  listing ≡ₚ map_to_list updates.

(** The loop [for h, count := range updates] of UpdateManifest: the tables
    the manifest does not name yet are appended to its specs, in the order
    in which the loop meets them.  [updates] is the listing of the map that
    this run of the loop goes through. *)
Definition add_specs (currSpecs : gset N) (updates : list (N * N))
    (sp : list tableSpec) : nat * list tableSpec :=
  foldl (λ '(addCount, sp) '(h, count),
           let a := h in
           if decide (a ∈ currSpecs) then (addCount, sp)
           else (S addCount, sp ++ [mkTableSpec a count]))
        (O, sp) updates.

(** The body of [nbs.UpdateManifest], between the taking of the update lock
    and the deferred unlock.  The map [updates] comes as the listing in
    which the range statement of this call goes through it: the order of
    the specs that are written depends on it, and what is proved of the
    call is proved for every listing of the map ([ranged]). *)
Definition UpdateManifest_locked (updates : list (N * N))
  : M W (manifestContents * option error) :=
  '(ok, contents, err) ← call EvFetch mm_Fetch;
  match err with
  | Some e => ret (zeroManifest, Some e)
  | None =>
      n ← get_nbs;
      let contents :=
        if (ok : bool) then contents
        else mkManifest (vers (upstream n)) 0 0 [] in
      let currSpecs : gset N := list_to_set (name <$> specs contents) in
      let '(addCount, sp) := add_specs currSpecs updates (specs contents) in
      let contents := mkManifest (vers contents) (lock contents) (root contents) sp in
      if decide (addCount = O) then ret (contents, None)
      else
        '(updatedContents, err) ← call (EvUpdate (lock contents) contents)
                                       (mm_Update (lock contents) contents);
        match err with
        | Some e => ret (zeroManifest, Some e)
        | None =>
            modify_nbs (set_upstream updatedContents);;
            rebase_tables (specs contents);;
            ret (updatedContents, None)
        end
  end.

(** [nbs.UpdateManifest]: the deferred [UnlockForUpdate] gives its error
    when the body gave none. *)
Definition UpdateManifest (updates : list (N * N))
  : M W (manifestContents * option error) :=
  call EvLockForUpdate (λ w, (tt, mm_LockForUpdate w));;
  '(mi, err) ← UpdateManifest_locked updates;
  unlockErr ← call EvUnlockForUpdate mm_UnlockForUpdate;
  match err with
  | None => ret (mi, unlockErr)
  | Some e => ret (mi, Some e)
  end.
End Manifest.

(** *** Notions the properties of these functions are stated with *)

(** The source is a memtable that holds the address [a] with a nil slice. *)
Definition cs_holds_nil (a : addr) (cs : chunkSource) : Prop :=
  match cs with
  | memTableSource m => chunks m !! a = Some None
  | _ => False
  end.

(** Some in-memory layer of the store holds the address [a] with a nil
    slice: its memtable, or a memtable that was prepended to its tables. *)
Definition holds_nil (n : NomsBlockStore) (a : addr) : Prop :=
  (∃ m, mt n = Some m ∧ chunks m !! a = Some None) ∨
  Exists (cs_holds_nil a) (novel (tables n) ++ upstream_ts (tables n)).

(** What [has] says of a probe for which [get] says [g]; [nil_held] says
    that a layer probed holds the address with a nil slice. *)
Definition has_of_get (nil_held : Prop) (g : option (list byte) * option error)
  : bool * option error → Prop :=
  λ hres,
  match hres with
  | (_, Some e) => g = (None, Some e)
  | (false, None) => g = (None, None)
  | (true, None) =>
      nil_held ∨ (∃ d, g = (Some d, None)) ∨ (∃ e, g = (None, Some e))
  end.

(** The addresses of the requests no layer has answered yet. *)
Definition open_requests (addrs : list hasRecord) : list addr :=
  hr_a <$> filter (λ r, has r = false) addrs.

(** The contents UpdateManifest starts from: what it fetched, or, without
    a manifest, empty contents with the store's version. *)
Definition fetched_or_empty (n : NomsBlockStore) (ok : bool)
    (contents : manifestContents) : manifestContents :=
  if ok then contents else mkManifest (vers (upstream n)) 0 0 [].

(** The specs of the updates whose table the contents do not name yet, in
    the order of the listing. *)
Definition new_specs (contents : manifestContents) (listing : list (N * N))
  : list tableSpec :=
  (λ hc, mkTableSpec hc.1 hc.2)
    <$> filter (λ hc : N * N, hc.1 ∉ name <$> specs contents) listing.

(** The calls the loop of [Commit(current, last)] can make: a manifest
    Update whose contents have root [current] and the lock generated from
    that root and their specs, or a Conjoin. *)
Definition commit_event {W} `{Collaborators W} (current : Hash) (ev : Event) : Prop :=
  match ev with
  | EvUpdate _ newContents =>
      root newContents = current ∧
      lock newContents = generateLockHash current (specs newContents)
  | EvConjoin _ => True
  | _ => False
  end.

(** The index of source [cs] lists the address [h]. *)
Definition lists (cs : chunkSource) (h : addr) : Prop :=
  match cs with
  | mmapTableReader _ ti => h ∈ te_addr <$> ti
  | chunkSourceAdapter _ (inl ti) => h ∈ te_addr <$> ti
  | _ => False
  end.

(** Source [cs] is the table [t], its index lists [h], and [rg] is the
    offset and the length the index gives for [h]. *)
Definition located (cs : chunkSource) (t h : addr) (rg : Range) : Prop :=
  match cs with
  | mmapTableReader t' ti | chunkSourceAdapter t' (inl ti) =>
      t' = t ∧ h ∈ te_addr <$> ti ∧
      rg = mkRange (offsets ti (lookupOrdinal ti h)) (lengths ti (lookupOrdinal ti h))
  | _ => False
  end.

(** What holds of the state of GetChunkLocations after the sources [probed]
    have been probed for the hashes [requested]. *)
Definition loc_track (requested : gset N) (probed : chunkSources) (s : locState) : Prop :=
  (∀ h, h ∈ loc_hashes s → h ∈ requested) ∧
  (∀ req, req ∈ loc_gr s → gr_a req ∈ requested) ∧
  (∀ h, h ∈ loc_hashes s → ∃ req, req ∈ loc_gr s ∧ gr_a req = h) ∧
  (∀ t y h rg, loc_ranges s !! t = Some y → y !! h = Some rg →
     h ∈ requested ∧ h ∉ loc_hashes s ∧ ∃ cs, cs ∈ probed ∧ located cs t h rg) ∧
  (∀ h cs, h ∈ loc_hashes s → cs ∈ probed → ¬ lists cs h) ∧
  (∀ h, h ∈ requested → h ∉ loc_hashes s → ∃ t, assigned (loc_ranges s) t h).

(** *** More stores used as examples *)

Module Stores.
Import Local.

Definition entry6 : tableEntry := mkEntry 6 20 (inl threeBytes).

(** A store of two mmap-backed tables that both hold chunk 5. *)
Definition twoTables : NomsBlockStore :=
  mkNBS None
    (mkTableSet [] [mmapTableReader 100 [entry5]; mmapTableReader 200 [entry5; entry6]])
    (mkManifest "7.18" 0 0 []) 4 0.

(** The store [onePut] over a remote table whose index cannot be loaded. *)
Definition brokenAdapter : NomsBlockStore :=
  set_tables (mkTableSet [] [chunkSourceAdapter 100 (inr (errIO 3))]) (nbs onePut).

(** A manifest that names table 100, and the world that holds it together
    with the files of tables 100 and 200. *)
Definition naming100 : manifestContents :=
  mkManifest "7.18" 999 9 [mkTableSpec 100 1].

Definition with_manifest (st : St World) : St World :=
  mkSt (nbs st)
       (mkWorld (Some naming100) None
                (<[100 := [entry5]]> (<[200 := [entry5; entry6]]> ∅)) false)
       (log st).

(** A store whose process has seen, in its manifest cache, that another
    writer moved the root to 9. *)
Definition stale (st : St World) : St World :=
  mkSt (nbs st) (mkWorld (Some (theirs 9)) (Some (theirs 9)) ∅ false) (log st).

End Stores.

(** * Properties *)

(** ** Put and Get *)

Lemma mt_addChunk_holds (m m' : memTable) (h : addr) (d : slice) :
  mt_addChunk m h d = (true, m') → chunks m' !! h = Some d.
Proof.
  unfold mt_addChunk. case_decide; [discriminate|].
  intros [= <-]. simpl. by rewrite lookup_insert_eq.
Qed.

Lemma mt_addChunk_get (m m' : memTable) (h : addr) (d : slice) :
  mt_addChunk m h d = (true, m') → mt_get m' h = (d, None).
Proof.
  intros Hadd%mt_addChunk_holds. unfold mt_get. by rewrite Hadd.
Qed.

Lemma mt_addChunk_rejected (m m' : memTable) (h : addr) (d : slice) :
  mt_addChunk m h d = (false, m') → m' = m ∧ maxData m < totalData m + len d.
Proof.
  unfold mt_addChunk. case_decide; [|discriminate]. by intros [= <-].
Qed.

Lemma mt_addChunk_fresh (memTableSize : N) (h : addr) (d : slice) :
  fst (mt_addChunk (newMemTable memTableSize) h d) = true ↔ len d <= memTableSize.
Proof.
  unfold mt_addChunk, newMemTable. simpl. case_decide; simpl; split; try done; lia.
Qed.

(** What [addChunk] does, case by case on the two adds. *)
Lemma addChunk_cases {W} (h : addr) (d : slice) (st : St W) :
  let n := nbs st in
  let m := current_memtable n in
  addChunk h d st =
    match mt_addChunk m h d with
    | (true, m') => (true, mkSt (set_mt (Some m') n) (world st) (log st))
    | (false, _) =>
        let '(ok2, m2) := mt_addChunk (newMemTable (mtSize n)) h d in
        (ok2, mkSt (set_mt (Some m2) (set_tables (Prepend (tables n) m) n))
                   (world st) (log st))
    end.
Proof.
  intros n m. unfold addChunk, bind, get_nbs, modify_nbs, ret. simpl.
  fold n. change (match mt n with None => newMemTable (mtSize n) | Some m0 => m0 end)
    with m.
  destruct (mt_addChunk m h d) as [[|] m'] eqn:E; simpl; [done|].
  apply mt_addChunk_rejected in E as [-> _].
  by destruct (mt_addChunk (newMemTable (mtSize n)) h d) as [ok2 m2].
Qed.

(** After a Put that reports no error the memtable holds the chunk: the
    slice that was put, under the chunk's address. *)
Lemma Put_ok_memtable {W} (c : Chunk) (st st' : St W) :
  Put c st = (None, st') →
  ∃ m, mt (nbs st') = Some m ∧ chunks m !! r c = Some (data c).
Proof.
  unfold Put, bind. rewrite addChunk_cases.
  destruct (mt_addChunk (current_memtable (nbs st)) (r c) (data c))
    as [[|] m'] eqn:E1; simpl.
  - intros [= <-]. simpl. eauto using mt_addChunk_holds.
  - destruct (mt_addChunk (newMemTable (mtSize (nbs st))) (r c) (data c))
      as [[|] m2] eqn:E2; simpl; [|discriminate].
    intros [= <-]. simpl. eauto using mt_addChunk_holds.
Qed.


(** C7: Put fails exactly when both the current memtable and a fresh one
    of [mtSize] bytes reject the chunk, so a chunk of at most [mtSize] bytes
    is always accepted; and when the current memtable rejects the chunk,
    that memtable is prepended to the novel tables, a fresh memtable takes
    its place, and the result is that of the one add on the fresh
    memtable. *)
Theorem Put_rotates_once {W} (c : Chunk) (st : St W) :
  let n := nbs st in
  let m := current_memtable n in
  let fresh := mt_addChunk (newMemTable (mtSize n)) (r c) (data c) in
  (len (data c) <= mtSize n → fst (Put c st) = None) ∧
  (fst (Put c st) ≠ None →
     fst (Put c st) = Some errAddChunkFailed ∧
     fst (mt_addChunk m (r c) (data c)) = false ∧ mtSize n < len (data c)) ∧
  (fst (mt_addChunk m (r c) (data c)) = false →
     tables (nbs (snd (Put c st))) = Prepend (tables n) m ∧
     mt (nbs (snd (Put c st))) = Some (snd fresh) ∧
     fst (Put c st) = (if fst fresh then None else Some errAddChunkFailed)).
Proof.
  intros n m fresh. unfold Put, bind. rewrite addChunk_cases. fold n m fresh.
  pose proof (mt_addChunk_fresh (mtSize n) (r c) (data c)) as Hfresh. fold fresh in Hfresh.
  destruct (mt_addChunk m (r c) (data c)) as [[|] m'] eqn:E1; simpl.
  - split_and!; [done|done|discriminate].
  - destruct fresh as [[|] m2] eqn:E2; simpl in *.
    + split_and!; [done|done|done].
    + split_and!; [|intros _; split_and!; [done|done|]|done].
      * intros Hle. apply Hfresh in Hle. discriminate.
      * apply N.lt_nge. intros Hle. apply Hfresh in Hle. discriminate.
Qed.

(** ** Get of an address the store does not hold *)

Lemma lookupOrdinal_from_absent (ti : tableIndex) (a : addr) (ord : nat) :
  ti_absent ti a → lookupOrdinal_from ti a ord = (ord + length ti)%nat.
Proof.
  unfold ti_absent. revert ord. induction ti as [|e ti IH]; intros ord Hna; simpl.
  - lia.
  - rewrite fmap_cons, not_elem_of_cons in Hna. destruct Hna as [Hne Hna].
    case_decide; [congruence|]. rewrite IH by done. lia.
Qed.

Lemma ti_get_absent (ti : tableIndex) (a : addr) :
  ti_absent ti a → ti_get ti a = (None, None).
Proof.
  intros Hna. unfold ti_get, lookupOrdinal.
  rewrite lookupOrdinal_from_absent, Nat2N.id by done.
  by rewrite lookup_ge_None_2.
Qed.

Lemma cs_get_absent (cs : chunkSource) (a : addr) :
  cs_absent a cs → cs_get cs a = (None, None).
Proof.
  destruct cs as [h ti|h [ti|e]|m]; simpl; intros Ha; try done.
  - by apply ti_get_absent.
  - by apply ti_get_absent.
  - unfold mt_get. by rewrite Ha.
Qed.

Lemma css_get_absent (css : chunkSources) (a : addr) :
  Forall (cs_absent a) css → css_get css a = (None, None).
Proof.
  induction 1 as [|cs css Hcs _ IH]; simpl; [done|].
  by rewrite cs_get_absent.
Qed.

(** C5: a Get of an address that is in none of the layers (memtable,
    novel tables, upstream tables) gives the empty chunk and a nil error. *)
Theorem Get_absent_is_empty {W} `{Collaborators W} (n : NomsBlockStore) (h : Hash) :
  absent n h → Get n h = (EmptyChunk hash_Of, None).
Proof.
  intros (Hmt & Hnovel & Hup). unfold Get, ts_get.
  rewrite !css_get_absent by done.
  destruct (mt n) as [m|]; simpl in *; [|done].
  unfold mt_get. by rewrite Hmt.
Qed.

(** ** updateManifest and the loop of Commit *)

Ltac run :=
  unfold handleOptimisticLockFailure, rebase_tables,
    unlock_deferred, bind, ret, get_nbs, modify_nbs, io, call in *;
  simpl in *.

Lemma flush_memtable_above_spec {W} (limit : N) (st : St W) :
  flush_memtable_above limit st =
    (None,
     match mt (nbs st) with
     | Some m =>
         if decide (limit < fst (mt_count m))
         then mkSt (set_mt None (set_tables (Prepend (tables (nbs st)) m) (nbs st)))
                   (world st) (log st)
         else st
     | None => st
     end).
Proof.
  unfold flush_memtable_above. run.
  destruct st as [n w l]; simpl. destruct (mt n); simpl; [|done].
  by case_decide.
Qed.

Section UpdateManifest.
Context {W : Type} `{Collaborators W}.

(** The only way out of [updateManifest] without an error is past a
    manifest [Update] that installed the new contents. *)
Lemma updateManifest_nil (current last : Hash) (st st' : St W) :
  updateManifest current last st = (None, st') →
  root (upstream (nbs st')) = current.
Proof.
  unfold updateManifest. run.
  destruct st as [n w l]; simpl.
  case_decide; [discriminate|].
  destruct (mm_updateWillFail _ _) as [cached [|]]; simpl.
  { repeat (case_match; simplify_eq/=); discriminate. }
  rewrite flush_memtable_above_spec. simpl.
  repeat (case_match; simplify_eq/=); try discriminate;
    intros; by simplify_eq/=.
Qed.

Lemma updateManifest_root_mismatch (current last : Hash) (st : St W) :
  root (upstream (nbs st)) ≠ last →
  updateManifest current last st = (Some errLastRootMismatch, st).
Proof.
  intros Hne. unfold updateManifest. run. by case_decide.
Qed.

(** What [updateManifest] does once the manifest [Update] has answered. *)
Lemma updateManifest_at_update (current last : Hash) (st st_cas : St W)
    (newContents up : manifestContents) :
  reaches_update current last st newContents up st_cas →
  updateManifest current last st =
    if decide (lock newContents ≠ lock up)
    then handleOptimisticLockFailure last up st_cas
    else (None,
          mkSt (set_tables (fst (ts_Flatten (tables (nbs st_cas))))
                           (set_upstream newContents (nbs st_cas)))
               (world st_cas) (log st_cas)).
Proof.
  intros (Hroot & Hdoom & Hconj & sp & w2 & w3 & Hsp & -> & Hup & ->).
  unfold updateManifest. run.
  destruct st as [n w l]; simpl in *.
  case_decide; [done|].
  destruct (mm_updateWillFail _ _) as [cached doomed]; simpl in *. subst doomed.
  rewrite flush_memtable_above_spec in *. simpl in *.
  set (st1 := match mt n with Some _ => _ | None => _ end) in *.
  assert (upstream (nbs st1) = upstream n ∧ log st1 = l) as [Hu Hl].
  { subst st1. destruct (mt n); [case_decide|]; done. }
  rewrite Hconj, Hsp. simpl. rewrite !Hu, Hl, Hup. simpl.
  case_decide; [done|].
  simpl. by destruct (ts_Flatten (tables (nbs st1))) as [ts [e|]].
Qed.


(** The loop answers [true] only after an [updateManifest] without error. *)
Lemma commit_loop_true (fuel : nat) (current last : Hash) (st st' : St W)
    (err : option error) :
  commit_loop fuel current last st = Some ((true, err), st') →
  err = None ∧ root (upstream (nbs st')) = current.
Proof.
  revert st. induction fuel as [|fuel IH]; intros st; simpl; [done|].
  destruct (updateManifest current last st) as [[e|] st1] eqn:E.
  - repeat case_decide; try (intros [=]; fail). apply IH.
  - intros [= <- <-]. eauto using updateManifest_nil.
Qed.

(** Off the fast path Commit is its loop, entered in [commit_entry st],
    followed by the deferred unlock. *)
Lemma Commit_slow_path (fuel : nat) (current last : Hash) (st : St W) :
  anyPossiblyNovelChunks (nbs st) = true ∨ current ≠ last →
  Commit fuel current last st =
    match commit_loop fuel current last (commit_entry st) with
    | None => None
    | Some (res, st3) => Some (unlock_deferred res st3)
    end.
Proof.
  intros Hslow. unfold Commit, commit_entry.
  rewrite flush_memtable_above_spec. simpl.
  destruct (anyPossiblyNovelChunks (nbs st)) eqn:E; simpl; [done|].
  destruct Hslow as [|Hne]; [done|]. by rewrite bool_decide_eq_false_2.
Qed.

Lemma unlock_deferred_nbs (res : bool * option error) (st : St W) :
  nbs (snd (unlock_deferred res st)) = nbs st.
Proof.
  run. destruct (mm_UnlockForUpdate (world st)) as [e w].
  by destruct res as [b [e'|]].
Qed.
End UpdateManifest.

(** ** Commit *)

Section CommitProperties.
Context {W : Type} `{Collaborators W}.

(** C2: when the manifest [Update] answers with contents whose lock is not
    the new lock, the store takes the answer as its upstream and rebases
    its tables onto its specs; if the answered root is not [last], Commit
    returns [(false, nil)]; if it is [last], the loop goes round again
    from that state and Commit returns what the retry returns. *)
Theorem Commit_optimistic_lock_failure (fuel : nat) (current last : Hash)
    (st st_cas : St W) (newContents up : manifestContents)
    (ts' : tableSet) (w4 : W) :
  anyPossiblyNovelChunks (nbs st) = true ∨ current ≠ last →
  reaches_update current last (commit_entry st) newContents up st_cas →
  lock newContents ≠ lock up →
  ts_Rebase (tables (nbs st_cas)) (specs up) (world st_cas) = ((ts', None), w4) →
  let st' := mkSt (set_tables ts' (set_upstream up (nbs st_cas))) w4 (log st_cas) in
  (root up ≠ last →
     updateManifest current last (commit_entry st)
       = (Some errOptimisticLockFailedRoot, st') ∧
     ∀ w5, mm_UnlockForUpdate w4 = (None, w5) →
       Commit (S fuel) current last st
         = Some ((false, None),
                 mkSt (nbs st') w5 (log st' ++ [EvUnlockForUpdate]))) ∧
  (root up = last →
     updateManifest current last (commit_entry st)
       = (Some errOptimisticLockFailedTables, st') ∧
     Commit (S fuel) current last st =
       match commit_loop fuel current last st' with
       | None => None
       | Some (res, st3) => Some (unlock_deferred res st3)
       end).
Proof.
  intros Hslow Hreach Hlock Hrebase st'.
  pose proof (updateManifest_at_update _ _ _ _ _ _ Hreach) as Hum.
  rewrite decide_True in Hum by done.
  assert (handleOptimisticLockFailure last up st_cas =
          (Some (if decide (last ≠ root up) then errOptimisticLockFailedRoot
                 else errOptimisticLockFailedTables), st')) as Hh.
  { run. rewrite Hrebase. simpl. by case_decide. }
  rewrite Hh in Hum. rewrite Commit_slow_path by done. simpl. rewrite Hum.
  split; intros Hroot.
  - rewrite decide_True by done. split; [done|]. intros w5 Hunlock.
    rewrite decide_True by auto. run. by rewrite Hunlock.
  - rewrite decide_False by (intros ?; congruence). split; [done|].
    rewrite decide_False by (intros [|]; discriminate).
    by rewrite decide_False by (intros Hx; by apply Hx).
Qed.

(** C3, amended: off the fast path (the store holds a memtable or novel
    tables, or [current] is not [last]), a Commit on a store whose
    upstream root is not [last] returns [(false, nil)] having called
    neither the manifest [Update] nor the conjoiner: it only takes and
    releases the update lock. *)
Theorem Commit_last_root_mismatch (fuel : nat) (current last : Hash)
    (st : St W) (w' : W) :
  anyPossiblyNovelChunks (nbs st) = true ∨ current ≠ last →
  root (upstream (nbs st)) ≠ last →
  mm_UnlockForUpdate (mm_LockForUpdate (world st)) = (None, w') →
  Commit (S fuel) current last st
    = Some ((false, None),
            mkSt (nbs (commit_entry st)) w'
                 (log st ++ [EvLockForUpdate; EvUnlockForUpdate])).
Proof.
  intros Hslow Hroot Hunlock. rewrite Commit_slow_path by done. simpl.
  assert (world (commit_entry st) = mm_LockForUpdate (world st) ∧
          log (commit_entry st) = log st ++ [EvLockForUpdate] ∧
          upstream (nbs (commit_entry st)) = upstream (nbs st)) as (Hw & Hl & Hu).
  { unfold commit_entry. rewrite flush_memtable_above_spec. simpl.
    destruct (mt (nbs st)); [case_decide|]; done. }
  rewrite updateManifest_root_mismatch by by rewrite Hu.
  rewrite decide_True by auto. run.
  by rewrite Hw, Hunlock, Hl, <-app_assoc.
Qed.

(** C4, amended: after a Commit off the fast path (the store held a
    memtable or novel tables, or [current] was not [last]) has returned
    [(true, nil)], Root returns [current]. *)
Theorem Commit_success_Root (fuel : nat) (current last : Hash) (st st' : St W) :
  anyPossiblyNovelChunks (nbs st) = true ∨ current ≠ last →
  Commit fuel current last st = Some ((true, None), st') →
  Root (nbs st') = (current, None).
Proof.
  intros Hslow. rewrite Commit_slow_path by done.
  destruct (commit_loop _ _ _ _) as [[[b e] st3]|] eqn:E; [|done].
  intros [= Hres]. unfold Root.
  assert (nbs st' = nbs st3 ∧ b = true) as [-> ->].
  { pose proof (unlock_deferred_nbs (b, e) st3) as Hn. rewrite Hres in Hn.
    split; [done|]. revert Hres. run.
    destruct (mm_UnlockForUpdate _), e; by intros [= -> _]. }
  apply commit_loop_true in E as [_ ->]. done.
Qed.

(** C6: with no memtable, no novel tables and [current = last], Commit
    is a Rebase: it fetches the manifest, takes what it fetched as its
    upstream, calls nothing else on the manifest manager (no [Update], no
    lock), and returns [(true, nil)]. *)
Theorem Commit_nothing_novel (fuel : nat) (current : Hash) (st st' : St W) :
  mt (nbs st) = None →
  novel (tables (nbs st)) = [] →
  Rebase st = (None, st') →
  Commit fuel current current st = Some ((true, None), st') ∧
  log st' = log st ++ [EvFetch] ∧
  (∀ contents w', mm_Fetch (world st) = ((true, contents, None), w') →
     upstream (nbs st') = contents) ∧
  (∀ contents w', mm_Fetch (world st) = ((false, contents, None), w') →
     nbs st' = nbs st).
Proof.
  intros Hmt Hnovel HRebase. unfold Commit, anyPossiblyNovelChunks, Novel.
  rewrite Hmt, Hnovel, HRebase. simpl.
  rewrite bool_decide_eq_true_2 by done. split; [done|].
  revert HRebase. unfold Rebase. run.
  destruct (mm_Fetch (world st)) as [[[ex contents] [e|]] w1]; simpl; [done|].
  destruct ex; simpl.
  - destruct (ts_Rebase _ _ _) as [[ts e] w2]. simpl. intros [= -> <-]. simpl.
    split_and!; [done| |done]. by intros ?? [= ->].
  - intros [= <-]. simpl. split_and!; [done|done|]. by destruct st.
Qed.



(** C9: when the manifest [Update] answers with the new lock,
    [updateManifest] installs the new contents, keeps whatever table set
    [Flatten] handed back and returns nil whether or not [Flatten]
    reported an error; Commit then returns [(true, nil)]. *)
Theorem Commit_discards_Flatten_error (fuel : nat) (current last : Hash)
    (st st_cas : St W) (newContents up : manifestContents)
    (ts : tableSet) (flattenErr : option error) :
  anyPossiblyNovelChunks (nbs st) = true ∨ current ≠ last →
  reaches_update current last (commit_entry st) newContents up st_cas →
  lock newContents = lock up →
  ts_Flatten (tables (nbs st_cas)) = (ts, flattenErr) →
  let st' := mkSt (set_tables ts (set_upstream newContents (nbs st_cas)))
                  (world st_cas) (log st_cas) in
  updateManifest current last (commit_entry st) = (None, st') ∧
  ∀ w', mm_UnlockForUpdate (world st_cas) = (None, w') →
    Commit (S fuel) current last st
      = Some ((true, None), mkSt (nbs st') w' (log st' ++ [EvUnlockForUpdate])).
Proof.
  intros Hslow Hreach Hlock Hflat st'.
  pose proof (updateManifest_at_update _ _ _ _ _ _ Hreach) as Hum.
  rewrite decide_False, Hflat in Hum by (intros Hx; by apply Hx).
  split; [done|]. intros w' Hunlock.
  rewrite Commit_slow_path by done. simpl. rewrite Hum. run.
  by rewrite Hunlock.
Qed.
End CommitProperties.

(** ** GetChunkLocations *)

Lemma toGetRecords_fresh (hashes : gset N) (req : getRecord) :
  req ∈ toGetRecords hashes → gr_a req ∈ hashes.
Proof.
  unfold toGetRecords. rewrite merge_sort_Permutation, list_elem_of_fmap.
  intros (a & -> & Ha). simpl. by apply elem_of_elements.
Qed.

Lemma findOffsets_requested (ti : tableIndex) (reqs : list getRecord) (o : offsetRec) :
  o ∈ findOffsets ti reqs → ∃ req, req ∈ reqs ∧ gr_a req = or_a o.
Proof.
  unfold findOffsets. rewrite merge_sort_Permutation, list_elem_of_omap.
  intros (req & Hreq & Ho). exists req. split; [done|].
  case_decide; [|done]. by simplify_eq/=.
Qed.

Lemma record_ranges_spec (ti : tableIndex) (ors : list offsetRec)
    (y : gmap N Range) (hashes : gset N) :
  let res := foldl (λ '(y, hashes) offsetRec,
                   let ord := ordinal offsetRec in
                   let length := lengths ti ord in
                   let a := or_a offsetRec in
                   (<[a := mkRange (offset offsetRec) length]> y, hashes ∖ {[a]}))
                (y, hashes) ors in
  (∀ a, is_Some (fst res !! a) ↔ is_Some (y !! a) ∨ a ∈ or_a <$> ors) ∧
  snd res = hashes ∖ list_to_set (or_a <$> ors).
Proof.
  revert y hashes. induction ors as [|o ors IH]; intros y hashes; simpl.
  - split; [|set_solver]. intros a. set_solver.
  - destruct (IH (<[or_a o := mkRange (offset o) (lengths ti (ordinal o))]> y)
                 (hashes ∖ {[or_a o]})) as [IH1 IH2].
    split.
    + intros a. etransitivity; [apply IH1|].
      rewrite lookup_insert_is_Some'. set_solver.
    + etransitivity; [apply IH2|]. set_solver.
Qed.

Lemma found_ranges_spec (ti : tableIndex) (l : list N)
    (found : list N) (y : gmap N Range) :
  let res := foldl (λ '(foundHashes, y) a,
                     let ord := lookupOrdinal ti a in
                     if decide (ord < chunkCount ti) then
                       (foundHashes ++ [a],
                        <[a := mkRange (offsets ti ord) (lengths ti ord)]> y)
                     else (foundHashes, y))
                  (found, y) l in
  ∃ new, fst res = found ++ new ∧ (∀ a, a ∈ new → a ∈ l) ∧
         ∀ a, is_Some (snd res !! a) ↔ is_Some (y !! a) ∨ a ∈ new.
Proof.
  revert found y. induction l as [|b l IH]; intros found y; simpl.
  - exists []. rewrite app_nil_r. set_solver.
  - case_decide.
    + destruct (IH (found ++ [b])
                   (<[b := mkRange (offsets ti (lookupOrdinal ti b))
                                   (lengths ti (lookupOrdinal ti b))]> y))
        as (new & Hf & Hsub & Hy).
      exists (b :: new). split; [|split].
      * etransitivity; [apply Hf|]. by rewrite <-app_assoc.
      * set_solver.
      * intros a. etransitivity; [apply Hy|].
        rewrite lookup_insert_is_Some'. set_solver.
    + destruct (IH found y) as (new & Hf & Hsub & Hy).
      exists new. split; [exact Hf|]. split; [set_solver|exact Hy].
Qed.

Lemma delete_found_spec (found : list N) (hashes : gset N) :
  foldl (λ hashes a, hashes ∖ {[a]}) hashes found = hashes ∖ list_to_set found.
Proof.
  revert hashes. induction found as [|a found IH]; intros hashes; simpl.
  - set_solver.
  - rewrite IH. set_solver.
Qed.

(** Giving the hashes [found], all of them still in the caller's set,
    ranges in table [h] and taking them out of the set keeps the invariant. *)
Lemma loc_inv_record (s : locState) (h : N) (found : list N)
    (y' : gmap N Range) (gr' : list getRecord) :
  loc_inv s →
  (∀ a, a ∈ found → a ∈ loc_hashes s) →
  (∀ a, is_Some (y' !! a) ↔ is_Some (default ∅ (loc_ranges s !! h) !! a) ∨ a ∈ found) →
  loc_inv (mkLoc (loc_hashes s ∖ list_to_set found) gr' (<[h := y']> (loc_ranges s))).
Proof.
  intros [Hout Hone] Hfound Hy'.
  assert (∀ t a, assigned (<[h := y']> (loc_ranges s)) t a →
                 assigned (loc_ranges s) t a ∨ (t = h ∧ a ∈ found)) as Hcases.
  { intros t a (y & Hy & Ha). destruct (decide (h = t)) as [->|Hne].
    - rewrite lookup_insert_eq in Hy. simplify_eq. apply Hy' in Ha as [Ha|Ha]; [|auto].
      left. destruct (loc_ranges s !! t) as [y0|] eqn:E; simpl in Ha.
      + by exists y0.
      + rewrite lookup_empty in Ha. by destruct Ha.
    - rewrite lookup_insert_ne in Hy by done. left. by exists y. }
  split; simpl.
  - intros t a [Hold|[-> Hin]]%Hcases.
    + apply Hout in Hold. set_solver.
    + set_solver.
  - intros t1 t2 a [H1|[-> H1]]%Hcases [H2|[-> H2]]%Hcases.
    + eauto.
    + apply Hout in H1. by apply Hfound in H2.
    + apply Hout in H2. by apply Hfound in H1.
    + done.
Qed.

Lemma probe_source_inv (cs : chunkSource) (s s' : locState) :
  loc_inv s → (is_mmap cs → loc_fresh s) → probe_source cs s = inl s' →
  loc_inv s' ∧ (loc_fresh s → ¬ is_adapter cs → loc_fresh s').
Proof.
  intros Hinv Hfresh. destruct cs as [h ti|h [ti|e]|m]; simpl; [| |done|done].
  - case_decide; [|intros [= <-]; auto].
    pose proof (record_ranges_spec ti (findOffsets ti (loc_gr s))
                  (default ∅ (loc_ranges s !! h)) (loc_hashes s)) as Hspec.
    simpl in Hspec. destruct (foldl _ _ _) as [y' hashes'].
    destruct Hspec as [Hy' Hhashes]. simpl in *. subst hashes'.
    intros [= <-]. split.
    + apply loc_inv_record; [done| |done].
      intros a (o & -> & Ho)%list_elem_of_fmap.
      apply findOffsets_requested in Ho as (req & Hreq & <-).
      by apply Hfresh.
    + intros _ _ req Hreq. by apply toGetRecords_fresh in Hreq.
  - pose proof (found_ranges_spec ti (elements (loc_hashes s)) []
                  (default ∅ (loc_ranges s !! h))) as Hspec.
    simpl in Hspec. destruct (foldl _ _ _) as [found y'].
    destruct Hspec as (new & Hf & Hsub & Hy'). simpl in *. subst found.
    rewrite delete_found_spec. intros [= <-]. split.
    + apply loc_inv_record; [done| |done].
      intros a Ha%Hsub. by apply elem_of_elements.
    + intros _ Hna. by destruct Hna.
Qed.

Lemma probe_sources_inv (css : chunkSources) (s s' : locState) :
  loc_inv s → loc_fresh s ∨ Forall (λ cs, ¬ is_mmap cs) css → adapters_last css →
  probe_sources css s = (None, s') → loc_inv s'.
Proof.
  revert s. induction css as [|cs css IH]; intros s Hinv Hfresh Hlast; simpl.
  - by intros [= <-].
  - destruct (probe_source cs s) as [s1|stop] eqn:E; [|done].
    destruct Hlast as [Hadapter Hlast].
    apply probe_source_inv in E as [Hinv1 Hfresh1]; [|done|].
    + apply IH; [done| |done].
      destruct Hfresh as [Hfresh|Hno%Forall_cons_1]; [|right; tauto].
      destruct cs as [h ti|h index|m].
      * left. apply Hfresh1; [done|]. by intros [].
      * right. apply Hadapter. exact I.
      * left. apply Hfresh1; [done|]. by intros [].
    + intros Hmmap. destruct Hfresh as [|Hno%Forall_cons_1]; [done|].
      by destruct Hno.
Qed.

Lemma probe_sources_app (l1 l2 : chunkSources) (s : locState) :
  probe_sources (l1 ++ l2) s =
    match probe_sources l1 s with
    | (None, s1) => probe_sources l2 s1
    | stop => stop
    end.
Proof.
  revert s. induction l1 as [|cs l1 IH]; intros s; simpl; [done|].
  by destruct (probe_source cs s).
Qed.

(** As long as no mmap-backed reader is probed after an adapter, every
    hash gets its range in one table only, and is out of the caller's set
    when the call returns. *)
Lemma GetChunkLocations_one_table (n : NomsBlockStore) (hashes left_ : gset N)
    (ranges : gmap N (gmap N Range)) :
  adapters_last (upstream_ts (tables n) ++ novel (tables n)) →
  GetChunkLocations n hashes = (inl ranges, left_) →
  at_most_one_table ranges ∧ ∀ t h, assigned ranges t h → h ∉ left_.
Proof.
  intros Hlast. unfold GetChunkLocations.
  pose proof (probe_sources_app (upstream_ts (tables n)) (novel (tables n))
                (mkLoc hashes (toGetRecords hashes) ∅)) as Happ.
  destruct (probe_sources (upstream_ts (tables n)) _) as [[stop|] s1]; [done|].
  destruct (probe_sources (novel (tables n)) s1) as [[stop|] s2]; [done|].
  intros [= <- <-].
  apply probe_sources_inv in Happ as [Hout Hone]; [done| |left|done].
  - split; simpl.
    + intros t h (y & Hy & _). by rewrite lookup_empty in Hy.
    + intros t1 t2 h (y & Hy & _). by rewrite lookup_empty in Hy.
  - intros req. apply toGetRecords_fresh.
Qed.

(** The order of the kinds matters in [GetChunkLocations_one_table]: with
    the adapter of a remote table ahead of an mmap-backed table that holds
    the same chunk, the chunk is deleted from the caller's set when the
    adapter is probed, but the request records [gr] are not made anew, and
    the mmap-backed table is probed with the stale records: the chunk gets
    a range in both tables.  No store holds such a table set: its tables
    all come from its one persister. *)
Remark GetChunkLocations_stale_requests :
  ∃ ranges,
    GetChunkLocations Local.mixedSources {[5]} = (inl ranges, ∅) ∧
    assigned ranges 100 5 ∧ assigned ranges 200 5 ∧
    ¬ at_most_one_table ranges.
Proof.
  eexists. split; [vm_compute; reflexivity|].
  assert (∀ t, t = 100 ∨ t = 200 →
            assigned (<[200 := {[5 := mkRange 0 10]}]> {[100 := {[5 := mkRange 0 10]}]}) t 5)
    as Hassigned.
  { intros t [-> | ->]; eexists; (split; [vm_compute; reflexivity|]);
      eexists; vm_compute; reflexivity. }
  split_and!; [apply Hassigned; auto..|].
  intros Hone. specialize (Hone 100 200 5). discriminate Hone; apply Hassigned; auto.
Qed.

(** ** The properties at work on the example stores *)

Section Examples.
Import Local.

Local Existing Instance sound.



Lemma Put_rotates_once_witness :
  fst (Put (NewChunk hashOf (Some threeBytes)) fullMemtable) = None ∧
  length (novel (tables (nbs (snd (Put (NewChunk hashOf (Some threeBytes)) fullMemtable)))))
    = 1%nat.
Proof.
  destruct (Put_rotates_once (NewChunk hashOf (Some threeBytes)) fullMemtable)
    as (Hfits & _ & Hrotate).
  split.
  - apply Hfits. vm_compute. discriminate.
  - destruct Hrotate as (-> & _); reflexivity.
Defined.

Lemma Get_absent_is_empty_witness :
  Get (nbs onePut) 9 = (EmptyChunk hashOf, None).
Proof.
  refine (Get_absent_is_empty (nbs onePut) 9 _).
  split_and!; [reflexivity|constructor|constructor].
Defined.

(** C3, as stated, fails: on a fresh store, whose root is zero,
    [Commit(77, 77)] takes the fast path and returns [(true, nil)]
    although the upstream root is not [last]. *)
Lemma Commit_fast_path_skips_root_check :
  root (upstream (nbs (freshSt 4))) ≠ 77 ∧
  Commit 1 77 77 (freshSt 4)
    = Some ((true, None), mkSt (freshStore 4) emptyWorld [EvFetch]).
Proof. split; [discriminate|reflexivity]. Qed.

Lemma Commit_last_root_mismatch_witness :
  Commit 1 77 5 onePut
    = Some ((false, None),
            mkSt (nbs (commit_entry onePut)) emptyWorld
                 [EvLockForUpdate; EvUnlockForUpdate]).
Proof.
  refine (Commit_last_root_mismatch 0 77 5 onePut emptyWorld _ _ _).
  - left. reflexivity.
  - discriminate.
  - reflexivity.
Defined.

(** C4, as stated, fails: a store with nothing novel whose manifest has
    been moved to root 9 by another process answers [Commit(5, 5)] with
    [(true, nil)] and then reports the root 9, not 5. *)
Lemma Commit_fast_path_Root_not_current :
  ∃ st', Commit 1 5 5 (behind 9 (freshSt 4)) = Some ((true, None), st') ∧
         Root (nbs st') = (9, None) ∧ Root (nbs st') ≠ (5, None).
Proof. eexists. split_and!; [reflexivity|reflexivity|discriminate]. Qed.

Lemma Commit_success_Root_witness :
  Root (nbs (snd (default ((true, None), onePut) (Commit 1 77 0 onePut))))
    = (77, None).
Proof.
  refine (Commit_success_Root 1 77 0 onePut _ _ _).
  - left. reflexivity.
  - vm_compute. reflexivity.
Defined.

Ltac reach :=
  unfold reaches_update; split_and!;
  [reflexivity | reflexivity | reflexivity
  | eexists _, _, _; split_and!; reflexivity].

(** A root conflict ([theirs 9] against [last = 0]) is answered with
    [(false, nil)]; a tables conflict ([theirs 0]) is retried and the
    retry succeeds. *)
Lemma Commit_optimistic_lock_failure_witness :
  (∃ st', Commit 1 77 0 (behind 9 onePut) = Some ((false, None), st') ∧
          upstream (nbs st') = theirs 9) ∧
  (∃ st', Commit 2 77 0 (behind 0 onePut) = Some ((true, None), st') ∧
          root (upstream (nbs st')) = 77).
Proof.
  split.
  - assert (anyPossiblyNovelChunks (nbs (behind 9 onePut)) = true ∨ 77 ≠ 0)
      as Hslow by (left; reflexivity).
    eassert (reaches_update 77 0 (commit_entry (behind 9 onePut)) _ (theirs 9) _)
      as Hreach by reach.
    lazymatch type of Hreach with
    | reaches_update _ _ _ ?nc ?up ?sc =>
        assert (lock nc ≠ lock up) as Hlock by discriminate;
        eassert (ts_Rebase (tables (nbs sc)) (specs up) (world sc) = (_, None, _))
          as Hrebase by reflexivity
    end.
    destruct (Commit_optimistic_lock_failure 0 77 0 _ _ _ _ _ _
                Hslow Hreach Hlock Hrebase) as [Hroot _].
    destruct Hroot as [_ HCommit]; [discriminate|].
    eexists. split; [apply HCommit; reflexivity|reflexivity].
  - assert (anyPossiblyNovelChunks (nbs (behind 0 onePut)) = true ∨ 77 ≠ 0)
      as Hslow by (left; reflexivity).
    eassert (reaches_update 77 0 (commit_entry (behind 0 onePut)) _ (theirs 0) _)
      as Hreach by reach.
    lazymatch type of Hreach with
    | reaches_update _ _ _ ?nc ?up ?sc =>
        assert (lock nc ≠ lock up) as Hlock by discriminate;
        eassert (ts_Rebase (tables (nbs sc)) (specs up) (world sc) = (_, None, _))
          as Hrebase by reflexivity
    end.
    destruct (Commit_optimistic_lock_failure 1 77 0 _ _ _ _ _ _
                Hslow Hreach Hlock Hrebase) as [_ Htables].
    destruct Htables as [_ HCommit]; [reflexivity|].
    eexists. split; [rewrite HCommit; vm_compute; reflexivity|reflexivity].
Defined.

(** A store with nothing novel, behind a manifest whose root is 9:
    [Commit(5, 5)] fetches the manifest and takes it as upstream. *)
Lemma Commit_nothing_novel_witness :
  ∃ st', Commit 0 5 5 (behind 9 (freshSt 4)) = Some ((true, None), st') ∧
         log st' = [EvFetch] ∧ upstream (nbs st') = theirs 9.
Proof.
  eassert (Rebase (behind 9 (freshSt 4)) = (None, _)) as HRebase by reflexivity.
  destruct (Commit_nothing_novel 0 5 (behind 9 (freshSt 4)) _
              eq_refl eq_refl HRebase) as (HCommit & Hlog & Hup & _).
  eexists. split_and!; [exact HCommit|exact Hlog|].
  eapply Hup. reflexivity.
Defined.


(** With a [Flatten] that fails, Commit still returns [(true, nil)], and
    the store is left with the table set that [Flatten] handed back. *)
Lemma Commit_discards_Flatten_error_witness :
  ∃ st', Commit (H := failingFlatten) 1 77 0 onePut
           = Some ((true, None), st') ∧
         tables (nbs st') = newTableSet ∧ root (upstream (nbs st')) = 77.
Proof.
  assert (anyPossiblyNovelChunks (nbs onePut) = true ∨ 77 ≠ 0)
    as Hslow by (left; reflexivity).
  eassert (reaches_update (H := failingFlatten)
             77 0 (commit_entry onePut) _ _ _) as Hreach by reach.
  lazymatch type of Hreach with
  | reaches_update _ _ _ ?nc ?up ?sc =>
      assert (lock nc = lock up) as Hlock by reflexivity;
      assert (ts_Flatten (Collaborators := failingFlatten)
                (tables (nbs sc)) = (newTableSet, Some (errIO 7)))
        as Hflat by reflexivity
  end.
  destruct (Commit_discards_Flatten_error 0 77 0 _ _ _ _ _ _
              Hslow Hreach Hlock Hflat) as [_ HCommit].
  eexists. split; [apply HCommit; reflexivity|]. split; reflexivity.
Defined.
End Examples.

(** * Properties of the rest of the facade *)

(** ** Reads across Put, flush and Commit *)

(** [Get] and [Has], read off the two layers. *)
Lemma Get_layers {W} `{Collaborators W} (n : NomsBlockStore) (h : Hash) :
  Get n h =
    match mt n ≫= (λ m, default None (chunks m !! h)) with
    | Some d => (NewChunkWithHash h (Some d), None)
    | None =>
        match ts_get (tables n) h with
        | (_, Some e) => (EmptyChunk hash_Of, Some e)
        | (Some d, None) => (NewChunkWithHash h (Some d), None)
        | (None, None) => (EmptyChunk hash_Of, None)
        end
    end.
Proof.
  unfold Get, mt_get. destruct (mt n) as [m|]; simpl; [|done].
  by destruct (chunks m !! h) as [[d|]|].
Qed.

Lemma Has_layers (n : NomsBlockStore) (h : Hash) :
  Has n h =
    match mt n ≫= (λ m, chunks m !! h) with
    | Some _ => (true, None)
    | None =>
        match ts_has (tables n) h with
        | (_, Some e) => (false, Some e)
        | (has, None) => (has, None)
        end
    end.
Proof.
  unfold Has, mt_has. destruct (mt n) as [m|]; simpl; [|done].
  by destruct (chunks m !! h).
Qed.

(** Prepending a memtable puts its chunks in front of the table set. *)
Lemma ts_get_Prepend (ts : tableSet) (m : memTable) (h : addr) :
  ts_get (Prepend ts m) h =
    match default None (chunks m !! h) with
    | Some d => (Some d, None)
    | None => ts_get ts h
    end.
Proof.
  unfold ts_get, Prepend. simpl. unfold mt_get.
  by destruct (chunks m !! h) as [[d|]|].
Qed.

Lemma ts_has_Prepend (ts : tableSet) (m : memTable) (h : addr) :
  ts_has (Prepend ts m) h =
    match chunks m !! h with
    | Some d => (true, None)
    | None => ts_has ts h
    end.
Proof.
  unfold ts_has, Prepend. simpl. unfold mt_has. by destruct (chunks m !! h).
Qed.

Lemma flush_keeps_reads {W} `{Collaborators W} (limit : N) (st : St W) (h : Hash) :
  Get (nbs (snd (flush_memtable_above limit st))) h = Get (nbs st) h ∧
  Has (nbs (snd (flush_memtable_above limit st))) h = Has (nbs st) h.
Proof.
  rewrite flush_memtable_above_spec. simpl.
  destruct (mt (nbs st)) as [m|] eqn:Hmt; [|done].
  case_decide; [|done]. simpl.
  rewrite !Get_layers, !Has_layers. simpl.
  rewrite Hmt, ts_get_Prepend, ts_has_Prepend. simpl.
  by destruct (chunks m !! h) as [[d|]|].
Qed.

(** X1: a Put, accepted or not, rotating the memtable or not, changes no
    read of another address: Get and Has answer for it as before. *)
Theorem Put_keeps_other_reads {W} `{Collaborators W} (c : Chunk) (st : St W) (h : Hash) :
  h ≠ r c →
  Get (nbs (snd (Put c st))) h = Get (nbs st) h ∧
  Has (nbs (snd (Put c st))) h = Has (nbs st) h.
Proof.
  intros Hne.
  assert (nbs (snd (Put c st)) = nbs (snd (addChunk (r c) (data c) st)) ∨
          ∃ k, nbs (snd (Put c st))
               = set_putCount k (nbs (snd (addChunk (r c) (data c) st)))) as Hput.
  { unfold Put, bind, modify_nbs, ret.
    destruct (addChunk (r c) (data c) st) as [[|] st1]; simpl; eauto. }
  assert (∀ n k, Get (set_putCount k n) h = Get n h ∧
                 Has (set_putCount k n) h = Has n h) as Hcount by done.
  assert (Get (nbs (snd (addChunk (r c) (data c) st))) h = Get (nbs st) h ∧
          Has (nbs (snd (addChunk (r c) (data c) st))) h = Has (nbs st) h) as Hadd.
  { rewrite addChunk_cases. rewrite !(Get_layers (nbs st)), !(Has_layers (nbs st)).
    unfold current_memtable, mt_addChunk.
    destruct (mt (nbs st)) as [m|] eqn:Hmt; simpl;
      repeat (case_decide; simpl);
      rewrite !Get_layers, !Has_layers; simpl;
      rewrite ?ts_get_Prepend, ?ts_has_Prepend; simpl;
      rewrite ?lookup_insert_ne, ?lookup_empty by done; simpl;
      try destruct (chunks m !! h) as [[d|]|]; done. }
  destruct Hput as [Hp|[k Hp]]; rewrite Hp; [exact Hadd|].
  destruct (Hcount (nbs (snd (addChunk (r c) (data c) st))) k) as [HG HH].
  rewrite HG, HH. exact Hadd.
Qed.

Lemma unlock_deferred_success {W} `{Collaborators W}
    (res : bool * option error) (st : St W) :
  fst (fst (unlock_deferred res st)) = fst res.
Proof.
  run. destruct (mm_UnlockForUpdate (world st)) as [e w].
  by destruct res as [b [e'|]].
Qed.

(** X2: off the fast path, a Commit that finds the upstream root different
    from [last] returns [false] and leaves every read as it was: what was
    put before is still there, in the memtable or, after the pre-flush, in
    the newest novel table. *)
Theorem Commit_root_mismatch_keeps_reads {W} `{Collaborators W}
    (fuel : nat) (current last : Hash) (st : St W) :
  anyPossiblyNovelChunks (nbs st) = true ∨ current ≠ last →
  root (upstream (nbs st)) ≠ last →
  ∃ err st', Commit (S fuel) current last st = Some ((false, err), st') ∧
             ∀ h, Get (nbs st') h = Get (nbs st) h ∧ Has (nbs st') h = Has (nbs st) h.
Proof.
  intros Hslow Hroot. rewrite Commit_slow_path by done. simpl.
  assert (upstream (nbs (commit_entry st)) = upstream (nbs st)) as Hu.
  { unfold commit_entry. rewrite flush_memtable_above_spec. simpl.
    destruct (mt (nbs st)); [case_decide|]; done. }
  rewrite updateManifest_root_mismatch by by rewrite Hu.
  rewrite decide_True by auto.
  pose proof (unlock_deferred_success (false, None) (commit_entry st)) as Hb.
  pose proof (unlock_deferred_nbs (false, None) (commit_entry st)) as Hn.
  destruct (unlock_deferred (false, None) (commit_entry st)) as [[b err] st'].
  simpl in Hb, Hn. subst b. exists err, st'. split; [done|]. intros h.
  rewrite Hn. unfold commit_entry. simpl. apply flush_keeps_reads.
Qed.

(** ** Has against Get *)

Lemma ti_has_get (ti : tableIndex) (a : addr) :
  has_of_get False (ti_get ti a)
             (bool_decide (lookupOrdinal ti a < chunkCount ti), None).
Proof.
  unfold ti_get, chunkCount, has_of_get.
  destruct (ti !! N.to_nat (lookupOrdinal ti a)) as [e|] eqn:E.
  - apply lookup_lt_Some in E. rewrite bool_decide_eq_true_2 by lia.
    destruct (te_read e); eauto.
  - apply lookup_ge_None in E. by rewrite bool_decide_eq_false_2 by lia.
Qed.

Lemma cs_has_get (cs : chunkSource) (a : addr) :
  has_of_get (cs_holds_nil a cs) (cs_get cs a) (cs_has cs a).
Proof.
  destruct cs as [h ti|h [ti|e]|m]; simpl; try apply ti_has_get; [done|].
  unfold mt_get, mt_has. destruct (chunks m !! a) as [[d|]|]; simpl; eauto.
Qed.

Lemma css_has_get (css : chunkSources) (a : addr) :
  has_of_get (Exists (cs_holds_nil a) css) (css_get css a) (css_has css a).
Proof.
  induction css as [|cs css IH]; simpl; [done|].
  pose proof (cs_has_get cs a) as Hcs. unfold has_of_get in *.
  destruct (cs_has cs a) as [[|] [e|]], (cs_get cs a) as [[d|] [e'|]];
    try destruct (css_has css a) as [[|] [e2|]];
    rewrite ?Exists_cons; naive_solver.
Qed.

Lemma ts_has_get (ts : tableSet) (a : addr) :
  has_of_get (Exists (cs_holds_nil a) (novel ts ++ upstream_ts ts))
             (ts_get ts a) (ts_has ts a).
Proof.
  unfold ts_get, ts_has.
  pose proof (css_has_get (novel ts) a) as Hn.
  pose proof (css_has_get (upstream_ts ts) a) as Hu. unfold has_of_get in *.
  destruct (css_has (novel ts) a) as [[|] [e|]],
    (css_get (novel ts) a) as [[d|] [e'|]];
    try destruct (css_has (upstream_ts ts) a) as [[|] [e2|]];
    rewrite ?Exists_app; naive_solver.
Qed.

(** X3: Has and Get agree.  Where Has reports an error, Get reports the
    same one; where Has says no, Get gives the empty chunk and no error;
    where Has says yes, Get gives a chunk with the hash asked for, or the
    error of reading its record; unless an in-memory layer holds the
    address with a nil slice, which Has counts as held and Get passes
    over as a miss. *)
Theorem Has_Get_agree {W} `{Collaborators W} (n : NomsBlockStore) (h : Hash) :
  match Has n h with
  | (_, Some e) => Get n h = (EmptyChunk hash_Of, Some e)
  | (false, None) => Get n h = (EmptyChunk hash_Of, None)
  | (true, None) =>
      holds_nil n h ∨
      (∃ d, Get n h = (NewChunkWithHash h (Some d), None)) ∨
      (∃ e, Get n h = (EmptyChunk hash_Of, Some e))
  end.
Proof.
  rewrite Get_layers, Has_layers. unfold holds_nil.
  destruct (mt n) as [m|]; simpl.
  - destruct (chunks m !! h) as [[d|]|] eqn:Hm; simpl; [eauto 6|eauto 6|].
    pose proof (ts_has_get (tables n) h) as Hts. unfold has_of_get in Hts.
    destruct (ts_has (tables n) h) as [[|] [e|]],
      (ts_get (tables n) h) as [[d|] [e'|]]; naive_solver.
  - pose proof (ts_has_get (tables n) h) as Hts. unfold has_of_get in Hts.
    destruct (ts_has (tables n) h) as [[|] [e|]],
      (ts_get (tables n) h) as [[d|] [e'|]]; naive_solver.
Qed.

(** X4: after a Put that reports no error, Has answers yes for the
    chunk's address, whatever the table set holds. *)
Theorem Put_Has {W} (c : Chunk) (st st' : St W) :
  Put c st = (None, st') → Has (nbs st') (r c) = (true, None).
Proof.
  intros (m & Hm & Hheld)%Put_ok_memtable. rewrite Has_layers, Hm. simpl.
  by rewrite Hheld.
Qed.

(** ** HasMany *)

Lemma open_requests_cons (r : hasRecord) (addrs : list hasRecord) :
  open_requests (r :: addrs) =
    if has r then open_requests addrs else hr_a r :: open_requests addrs.
Proof.
  unfold open_requests. rewrite filter_cons. destruct (has r); by case_decide.
Qed.

Lemma hasMany_with_spec (probe : addr → bool * option error)
    (addrs addrs' : list hasRecord) (remaining : bool) :
  hasMany_with probe addrs = (addrs', remaining, None) →
  (remaining = false → open_requests addrs' = []) ∧
  (∀ a, a ∈ open_requests addrs' →
     a ∈ open_requests addrs ∧ probe a = (false, None)) ∧
  (∀ a, a ∈ open_requests addrs → a ∉ open_requests addrs' → probe a = (true, None)).
Proof.
  revert addrs' remaining.
  induction addrs as [|r addrs IH]; intros addrs' remaining; simpl.
  - intros [= <- <-]. set_solver.
  - destruct (hasMany_with probe addrs) as [[addrs'' rem] err] eqn:E.
    destruct (has r) eqn:Hr.
    + intros [= <- <- ->]. destruct (IH _ _ eq_refl) as (IH1 & IH2 & IH3).
      rewrite !open_requests_cons, Hr. done.
    + destruct (probe (hr_a r)) as [[|] [e|]] eqn:Ep; try done.
      * intros [= <- <- ->]. destruct (IH _ _ eq_refl) as (IH1 & IH2 & IH3).
        rewrite !open_requests_cons, Hr. simpl. split_and!; [done| |].
        -- intros a [Ha ?]%IH2. set_solver.
        -- intros a [->|Ha]%elem_of_cons Hna; [done|by apply IH3].
      * intros [= <- <- ->]. destruct (IH _ _ eq_refl) as (IH1 & IH2 & IH3).
        rewrite !open_requests_cons, Hr. split_and!; [done| |].
        -- intros a [->|[Ha ?]%IH2]%elem_of_cons; set_solver.
        -- intros a [->|Ha]%elem_of_cons Hna; [set_solver|].
           apply IH3; [done|]. set_solver.
Qed.

Lemma css_hasMany_spec (css : chunkSources) (addrs addrs' : list hasRecord)
    (remaining : bool) :
  css_hasMany css addrs = (addrs', remaining, None) →
  (remaining = false → open_requests addrs' = []) ∧
  (∀ a, a ∈ open_requests addrs' →
     a ∈ open_requests addrs ∧ css_has css a = (false, None)) ∧
  (∀ a, a ∈ open_requests addrs → a ∉ open_requests addrs' →
     css_has css a = (true, None)).
Proof.
  revert addrs. induction css as [|cs css IH]; intros addrs; simpl.
  - intros [= <- <-]. set_solver.
  - destruct (hasMany_with (cs_has cs) addrs) as [[addrs1 rem1] [e|]] eqn:E;
      [by destruct rem1|].
    apply hasMany_with_spec in E as (H1 & H2 & H3).
    destruct rem1.
    + intros (IH1 & IH2 & IH3)%IH. split_and!; [done| |].
      * intros a [Ha1 Hcss]%IH2. apply H2 in Ha1 as [Ha Hcs].
        by rewrite Hcs.
      * intros a Ha Hna. destruct (decide (a ∈ open_requests addrs1)) as [Ha1|Ha1].
        -- destruct (H2 a Ha1) as [_ ->]. by apply IH3.
        -- by rewrite (H3 a Ha Ha1).
    + intros [= <- <-]. rewrite (H1 eq_refl) in *. split_and!; [done|set_solver|].
      intros a Ha _. rewrite H3; [done|done|set_solver].
Qed.

Lemma ts_hasMany_spec (ts : tableSet) (addrs addrs' : list hasRecord)
    (remaining : bool) :
  ts_hasMany ts addrs = (addrs', remaining, None) →
  (∀ a, a ∈ open_requests addrs' →
     a ∈ open_requests addrs ∧ ts_has ts a = (false, None)) ∧
  (∀ a, a ∈ open_requests addrs → a ∉ open_requests addrs' →
     ts_has ts a = (true, None)).
Proof.
  unfold ts_hasMany, ts_has.
  destruct (css_hasMany (novel ts) addrs) as [[addrs1 rem1] [e|]] eqn:E;
    [by destruct rem1|].
  apply css_hasMany_spec in E as (H1 & H2 & H3).
  destruct rem1.
  - intros (IH1 & IH2 & IH3)%css_hasMany_spec. split.
    + intros a [Ha1 Hcss]%IH2. apply H2 in Ha1 as [Ha Hcs]. by rewrite Hcs.
    + intros a Ha Hna. destruct (decide (a ∈ open_requests addrs1)) as [Ha1|Ha1].
      * destruct (H2 a Ha1) as [_ ->]. by apply IH3.
      * by rewrite (H3 a Ha Ha1).
  - intros [= <- <-]. rewrite (H1 eq_refl) in *. split; [set_solver|].
    intros a Ha _. rewrite H3; [done|done|set_solver].
Qed.

Lemma toHasRecords_open (hashes : gset N) (a : addr) :
  a ∈ open_requests (toHasRecords hashes) ↔ a ∈ hashes.
Proof.
  unfold open_requests, toHasRecords.
  rewrite list_elem_of_fmap. setoid_rewrite list_elem_of_filter.
  setoid_rewrite merge_sort_Permutation. setoid_rewrite list_elem_of_lookup.
  setoid_rewrite list_lookup_imap. split.
  - intros (r & -> & _ & i & Hi). destruct (elements hashes !! i) as [b|] eqn:E; [|done].
    simpl in Hi. simplify_eq/=. apply elem_of_elements, list_elem_of_lookup. eauto.
  - intros (i & Hi)%elem_of_elements%list_elem_of_lookup.
    exists (mkHasRecord a (Prefix a) i false). split_and!; [done|done|].
    exists i. by rewrite Hi.
Qed.

Lemma absent_of_requests (reqs : list hasRecord) (absent : gset N) (a : addr) :
  a ∈ foldl (λ absent r, if has r then absent else absent ∪ {[hr_a r]}) absent reqs
  ↔ a ∈ absent ∨ a ∈ open_requests reqs.
Proof.
  revert absent. induction reqs as [|r reqs IH]; intros absent; simpl.
  - set_solver.
  - rewrite IH, open_requests_cons. destruct (has r); set_solver.
Qed.

Lemma Has_of_memtable (n : NomsBlockStore) (h : Hash) :
  Has n h =
    match mt n with
    | Some m =>
        if fst (mt_has m h) then (true, None)
        else match ts_has (tables n) h with
             | (_, Some e) => (false, Some e)
             | (has, None) => (has, None)
             end
    | None =>
        match ts_has (tables n) h with
        | (_, Some e) => (false, Some e)
        | (has, None) => (has, None)
        end
    end.
Proof.
  unfold Has, mt_has. destruct (mt n) as [m|]; simpl; [|done].
  by destruct (bool_decide _).
Qed.

(** X5: when HasMany reports no error, the set it returns holds exactly
    the requested hashes for which Has says no, and Has says yes, without
    an error, for every other requested hash. *)
Theorem HasMany_agrees_with_Has (n : NomsBlockStore) (hashes absent : gset N) :
  HasMany n hashes = (Some absent, None) →
  ∀ h, (h ∈ absent ↔ h ∈ hashes ∧ Has n h = (false, None)) ∧
       (h ∈ hashes → h ∉ absent → Has n h = (true, None)).
Proof.
  unfold HasMany. intros HM h. rewrite Has_of_memtable.
  pose proof (toHasRecords_open hashes) as Hopen.
  assert (∀ (reqs1 reqs2 : list hasRecord) rem,
            (∀ a, a ∈ open_requests reqs1 ↔ a ∈ hashes ∧
               match mt n with Some m => mt_has m a = (false, None) | None => True end) →
            (∀ a, a ∈ hashes → a ∉ open_requests reqs1 →
               match mt n with Some m => mt_has m a = (true, None) | None => False end) →
            ts_hasMany (tables n) reqs1 = (reqs2, rem, None) →
            absent = foldl (λ absent r, if has r then absent else absent ∪ {[hr_a r]})
                           ∅ reqs2 →
            (h ∈ absent ↔ h ∈ hashes ∧
               match mt n with
               | Some m =>
                   if fst (mt_has m h) then (true, None)
                   else match ts_has (tables n) h with
                        | (_, Some e) => (false, Some e)
                        | (has, None) => (has, None)
                        end
               | None =>
                   match ts_has (tables n) h with
                   | (_, Some e) => (false, Some e)
                   | (has, None) => (has, None)
                   end
               end = (false, None)) ∧
            (h ∈ hashes → h ∉ absent →
               match mt n with
               | Some m =>
                   if fst (mt_has m h) then (true, None)
                   else match ts_has (tables n) h with
                        | (_, Some e) => (false, Some e)
                        | (has, None) => (has, None)
                        end
               | None =>
                   match ts_has (tables n) h with
                   | (_, Some e) => (false, Some e)
                   | (has, None) => (has, None)
                   end
               end = (true, None))) as Htables.
  { intros reqs1 reqs2 rem H1 H1' [H2 H3]%ts_hasMany_spec ->.
    setoid_rewrite absent_of_requests.
    destruct (decide (h ∈ open_requests reqs2)) as [Hin|Hout].
    - destruct (H2 h Hin) as [Hin1 Hts]. apply H1 in Hin1 as [Hh Hmt].
      rewrite Hts. destruct (mt n) as [m|]; [rewrite Hmt|]; set_solver.
    - split.
      + split; [set_solver|]. intros [Hh Hfalse]. exfalso.
        destruct (decide (h ∈ open_requests reqs1)) as [Hin1|Hout1].
        * rewrite (H3 h Hin1 Hout) in Hfalse.
          by destruct (mt n) as [m|]; [destruct (fst (mt_has m h))|].
        * specialize (H1' h Hh Hout1). destruct (mt n) as [m|]; [|done].
          by rewrite H1' in Hfalse.
      + intros Hh _. destruct (decide (h ∈ open_requests reqs1)) as [Hin1|Hout1].
        * rewrite (H3 h Hin1 Hout). apply H1 in Hin1 as [_ Hmt].
          destruct (mt n) as [m|]; [by rewrite Hmt|done].
        * specialize (H1' h Hh Hout1). destruct (mt n) as [m|]; [|done].
          by rewrite H1'. }
  destruct (mt n) as [m|] eqn:Hmt.
  - unfold mt_hasMany in HM.
    destruct (hasMany_with (mt_has m) (toHasRecords hashes))
      as [[reqs1 rem1] [e|]] eqn:E1; [done|].
    apply hasMany_with_spec in E1 as (Hm1 & Hm2 & Hm3).
    destruct rem1.
    + destruct (ts_hasMany (tables n) reqs1) as [[reqs2 rem2] [e|]] eqn:E2; [done|].
      injection HM as <-. eapply Htables; [| |exact E2|done].
      * intros a. split.
        -- intros Ha. destruct (Hm2 a Ha) as [Ha0 ?]. by apply Hopen in Ha0.
        -- intros [Ha Hfalse]. apply Hopen in Ha.
           destruct (decide (a ∈ open_requests reqs1)); [done|].
           by rewrite (Hm3 a Ha) in Hfalse.
      * intros a Ha Hna. apply Hm3; [by apply Hopen|done].
    + injection HM as <-. specialize (Hm1 eq_refl).
      assert (∀ a, a ∈ hashes → mt_has m a = (true, None)) as Hall.
      { intros a Ha. apply Hm3; [by apply Hopen|]. rewrite Hm1. set_solver. }
      rewrite absent_of_requests, Hm1. split.
      * split; [set_solver|]. intros [Hh Hfalse]. by rewrite (Hall h Hh) in Hfalse.
      * intros Hh _. by rewrite (Hall h Hh).
  - destruct (ts_hasMany (tables n) (toHasRecords hashes))
      as [[reqs2 rem2] [e|]] eqn:E2; [done|].
    injection HM as <-. eapply Htables; [| |exact E2|done].
    + intros a. rewrite Hopen. tauto.
    + intros a Ha Hna. by apply Hopen in Ha.
Qed.

Lemma hasMany_with_all_found (probe : addr → bool * option error)
    (addrs : list hasRecord) :
  (∀ a, a ∈ open_requests addrs → probe a = (true, None)) →
  ∃ addrs', hasMany_with probe addrs = (addrs', false, None) ∧
            open_requests addrs' = [].
Proof.
  induction addrs as [|r addrs IH]; intros Hall; simpl; [by eexists|].
  rewrite open_requests_cons in Hall. destruct (has r) eqn:Hr.
  - destruct (IH Hall) as (addrs' & -> & Hnil). eexists. split; [done|].
    by rewrite open_requests_cons, Hr.
  - rewrite (Hall (hr_a r)) by set_solver.
    destruct IH as (addrs' & -> & Hnil); [set_solver|]. eexists. split; [done|].
    by rewrite open_requests_cons.
Qed.

Lemma css_hasMany_nil (css : chunkSources) :
  ∃ remaining, css_hasMany css [] = ([], remaining, None).
Proof. destruct css; simpl; eauto. Qed.

(** X6: when the memtable holds every requested hash, HasMany returns the
    empty set and no error without asking the table set, whatever state
    its tables are in; and so it does for the empty request on a store
    without a memtable. *)
Theorem HasMany_memtable_only (n : NomsBlockStore) (hashes : gset N) :
  (∀ h, h ∈ hashes → ∃ m, mt n = Some m ∧ is_Some (chunks m !! h)) →
  HasMany n hashes = (Some ∅, None).
Proof.
  intros Hall. unfold HasMany.
  destruct (mt n) as [m|] eqn:Hmt.
  - destruct (hasMany_with_all_found (mt_has m) (toHasRecords hashes))
      as (reqs1 & E & Hnil).
    { intros a Ha%toHasRecords_open. destruct (Hall a Ha) as (m' & [= <-] & Hsome).
      unfold mt_has. by rewrite bool_decide_eq_true_2. }
    unfold mt_hasMany. rewrite E. do 2 f_equal. apply set_eq. intros a.
    rewrite absent_of_requests, Hnil. set_solver.
  - assert (hashes = ∅) as ->.
    { apply set_eq. intros a. split; [|set_solver].
      intros Ha. by destruct (Hall a Ha) as (m & ? & _). }
    assert (toHasRecords ∅ = []) as ->.
    { unfold toHasRecords. by rewrite elements_empty. }
    unfold ts_hasMany.
    destruct (css_hasMany_nil (novel (tables n))) as [[|] ->];
      [destruct (css_hasMany_nil (upstream_ts (tables n))) as [rem ->]|]; done.
Qed.

(** ** Rebase, UpdateManifest and the memtable *)

Lemma rebase_tables_mt {W} `{Collaborators W} (sp : list tableSpec) (st : St W) :
  mt (nbs (snd (rebase_tables sp st))) = mt (nbs st) ∧
  log (snd (rebase_tables sp st)) = log st.
Proof. run. by destruct (ts_Rebase _ _ _) as [[ts e] w]. Qed.

Lemma Rebase_mt {W} `{Collaborators W} (st : St W) :
  mt (nbs (snd (Rebase st))) = mt (nbs st).
Proof.
  unfold Rebase. run.
  destruct (mm_Fetch (world st)) as [[[ex contents] [e|]] w]; simpl; [done|].
  destruct ex; simpl; [|done].
  by destruct (ts_Rebase _ _ _) as [[ts e] w'].
Qed.

Lemma UpdateManifest_mt {W} `{Collaborators W} (listing : list (N * N)) (st : St W) :
  mt (nbs (snd (UpdateManifest listing st))) = mt (nbs st).
Proof.
  unfold UpdateManifest, UpdateManifest_locked. run.
  repeat (case_match; simplify_eq/=); done.
Qed.

(** X7: Rebase and UpdateManifest leave the memtable alone: a chunk put
    and not yet committed is still held after either of them, whatever
    they fetched, in whatever order the updates were listed, and whether
    or not they failed.  Has says yes for its address, and Get returns
    the chunk when its data is not the nil slice (a nil slice held by the
    memtable is a miss for Get, which then asks the tables). *)
Theorem Put_Rebase_Get {W} `{Collaborators W} (c : Chunk) (listing : list (N * N))
    (st st1 : St W) :
  Put c st = (None, st1) →
  (data c ≠ None →
   Get (nbs (snd (Rebase st1))) (r c) = (NewChunkWithHash (r c) (data c), None) ∧
   Get (nbs (snd (UpdateManifest listing st1))) (r c)
     = (NewChunkWithHash (r c) (data c), None)) ∧
  Has (nbs (snd (Rebase st1))) (r c) = (true, None) ∧
  Has (nbs (snd (UpdateManifest listing st1))) (r c) = (true, None).
Proof.
  intros (m & Hm & Hheld)%Put_ok_memtable.
  rewrite !Get_layers, !Has_layers, Rebase_mt, UpdateManifest_mt, Hm. simpl.
  rewrite Hheld. simpl. split; [|done].
  intros Hdata. by destruct (data c).
Qed.

(** ** UpdateManifest *)

Lemma add_specs_spec (currSpecs : gset N) (updates : list (N * N))
    (sp : list tableSpec) (k : nat) :
  foldl (λ '(addCount, sp) '(h, count),
           let a := h in
           if decide (a ∈ currSpecs) then (addCount, sp)
           else (S addCount, sp ++ [mkTableSpec a count]))
        (k, sp) updates
  = ((k + length (filter (λ hc : N * N, hc.1 ∉ currSpecs) updates))%nat,
     sp ++ ((λ hc, mkTableSpec hc.1 hc.2)
              <$> filter (λ hc : N * N, hc.1 ∉ currSpecs) updates)).
Proof.
  revert k sp. induction updates as [|[h count] updates IH]; intros k sp; simpl.
  - by rewrite Nat.add_0_r, app_nil_r.
  - rewrite filter_cons. simpl. case_decide.
    + rewrite decide_False by auto. apply IH.
    + rewrite decide_True by done. rewrite IH. simpl.
      by rewrite <-app_assoc, Nat.add_succ_r.
Qed.

Lemma add_specs_new (contents : manifestContents) (listing : list (N * N)) :
  add_specs (list_to_set (name <$> specs contents)) listing (specs contents)
  = (length (new_specs contents listing), specs contents ++ new_specs contents listing).
Proof.
  unfold add_specs, new_specs. rewrite add_specs_spec. simpl.
  rewrite length_fmap.
  assert (filter (λ hc : N * N, hc.1 ∉ (list_to_set (name <$> specs contents) : gset N))
                 listing
          = filter (λ hc : N * N, hc.1 ∉ name <$> specs contents) listing)
    as ->; [|done].
  apply list_filter_iff. intros [h count]. simpl. by rewrite elem_of_list_to_set.
Qed.

(** A listing of a map has each of its entries, once. *)
Lemma ranged_elem_of (updates : gmap N N) (listing : list (N * N)) (h count : N) :
  ranged updates listing → (h, count) ∈ listing ↔ updates !! h = Some count.
Proof. intros Hl. unfold ranged in Hl. by rewrite Hl, elem_of_map_to_list. Qed.

Lemma ranged_NoDup (updates : gmap N N) (listing : list (N * N)) :
  ranged updates listing → NoDup listing.
Proof. intros Hl. unfold ranged in Hl. rewrite Hl. apply NoDup_map_to_list. Qed.

(** What [new_specs] holds, whatever the order of the listing: each table
    of the updates that the contents do not name, once, with its count. *)
Lemma new_specs_spec (contents : manifestContents) (updates : gmap N N)
    (listing : list (N * N)) :
  ranged updates listing →
  NoDup (name <$> new_specs contents listing) ∧
  ∀ s, s ∈ new_specs contents listing ↔
       updates !! name s = Some (spec_chunkCount s) ∧ name s ∉ name <$> specs contents.
Proof.
  intros Hl. unfold new_specs. split.
  - rewrite <-list_fmap_compose.
    assert ((name ∘ (λ hc : N * N, mkTableSpec hc.1 hc.2)) = fst) as -> by done.
    apply NoDup_fmap_fst.
    + intros h c1 c2 [_ H1]%list_elem_of_filter [_ H2]%list_elem_of_filter.
      apply (ranged_elem_of _ _ _ _ Hl) in H1, H2. congruence.
    + apply NoDup_filter. eauto using ranged_NoDup.
  - intros [h count]. rewrite list_elem_of_fmap. simpl. split.
    + intros ([h' c'] & [= -> ->] & [Hnew Hin]%list_elem_of_filter).
      by apply (ranged_elem_of _ _ _ _ Hl) in Hin.
    + intros [Hin Hnew]. exists (h, count). split; [done|].
      apply list_elem_of_filter. split; [done|]. by apply (ranged_elem_of _ _ _ _ Hl).
Qed.

Lemma new_specs_nil (contents : manifestContents) (updates : gmap N N)
    (listing : list (N * N)) :
  ranged updates listing →
  (∀ h, h ∈ dom updates → h ∈ name <$> specs contents) →
  new_specs contents listing = [].
Proof.
  intros Hl Hnamed. unfold new_specs.
  destruct (filter _ listing) as [|[h count] l] eqn:E; [done|].
  assert ((h, count) ∈ filter (λ hc : N * N, hc.1 ∉ name <$> specs contents)
                         listing) as [Hnew Hin]%list_elem_of_filter.
  { rewrite E. set_solver. }
  apply (ranged_elem_of _ _ _ _ Hl) in Hin. destruct Hnew. apply Hnamed.
  apply elem_of_dom. eauto.
Qed.

(** Two listings of the same map give the same new specs, up to their order. *)
Lemma new_specs_ranged (contents : manifestContents) (updates : gmap N N)
    (l1 l2 : list (N * N)) :
  ranged updates l1 → ranged updates l2 →
  new_specs contents l1 ≡ₚ new_specs contents l2.
Proof.
  unfold ranged, new_specs. intros H1 H2. by rewrite H1, H2.
Qed.

Section UpdateManifestProperties.
Context {W : Type} `{Collaborators W}.

(** X8: when the manifest already names every table of the updates (and
    so for empty updates), UpdateManifest writes nothing, in whatever
    order the updates are listed: it takes the
    lock, fetches, releases the lock, leaves the store as it was, and hands
    back the contents it fetched (without a manifest: empty contents with
    the store's version). *)
Theorem UpdateManifest_nothing_new (updates : gmap N N) (listing : list (N * N))
    (st : St W)
    (ok : bool) (contents : manifestContents) (unlockErr : option error) (w1 w2 : W) :
  ranged updates listing →
  mm_Fetch (mm_LockForUpdate (world st)) = ((ok, contents, None), w1) →
  (∀ h, h ∈ dom updates →
        h ∈ name <$> specs (fetched_or_empty (nbs st) ok contents)) →
  mm_UnlockForUpdate w1 = (unlockErr, w2) →
  UpdateManifest listing st
    = ((fetched_or_empty (nbs st) ok contents, unlockErr),
       mkSt (nbs st) w2 (log st ++ [EvLockForUpdate; EvFetch; EvUnlockForUpdate])).
Proof.
  intros Hl HFetch Hnamed Hunlock. unfold UpdateManifest, UpdateManifest_locked. run.
  rewrite HFetch. simpl. fold (fetched_or_empty (nbs st) ok contents).
  rewrite add_specs_new, (new_specs_nil _ _ _ Hl Hnamed). simpl.
  rewrite Hunlock, app_nil_r, <-!app_assoc. simpl.
  by destruct (fetched_or_empty (nbs st) ok contents).
Qed.

(** X9: when some table of the updates is new, UpdateManifest makes one
    Update.  The contents it writes are the fetched ones with their specs
    kept in place and the new tables appended, each once with its count,
    in the order in which this call's range over the updates lists them
    (another listing of the same map appends the same specs in another
    order); their lock is the fetched lock, the one the Update is
    conditioned on.  The store takes the answer as its upstream and
    rebases onto the specs it wrote; an error of that Rebase is dropped. *)
Theorem UpdateManifest_appends (updates : gmap N N) (listing : list (N * N))
    (st : St W)
    (ok : bool) (contents updated : manifestContents) (ts' : tableSet)
    (rebaseErr unlockErr : option error) (w1 w2 w3 w4 : W) :
  let fetched := fetched_or_empty (nbs st) ok contents in
  let newContents :=
    mkManifest (vers fetched) (lock fetched) (root fetched)
               (specs fetched ++ new_specs fetched listing) in
  ranged updates listing →
  mm_Fetch (mm_LockForUpdate (world st)) = ((ok, contents, None), w1) →
  (∃ h, h ∈ dom updates ∧ h ∉ name <$> specs fetched) →
  mm_Update (lock fetched) newContents w1 = ((updated, None), w2) →
  ts_Rebase (tables (nbs st)) (specs newContents) w2 = ((ts', rebaseErr), w3) →
  mm_UnlockForUpdate w3 = (unlockErr, w4) →
  UpdateManifest listing st
    = ((updated, unlockErr),
       mkSt (set_tables ts' (set_upstream updated (nbs st))) w4
            (log st ++ [EvLockForUpdate; EvFetch;
                        EvUpdate (lock fetched) newContents; EvUnlockForUpdate])) ∧
  NoDup (name <$> new_specs fetched listing) ∧
  (∀ s, s ∈ new_specs fetched listing ↔
        updates !! name s = Some (spec_chunkCount s) ∧ name s ∉ name <$> specs fetched) ∧
  (∀ listing', ranged updates listing' →
               new_specs fetched listing' ≡ₚ new_specs fetched listing).
Proof.
  intros fetched newContents Hl HFetch (h0 & [c0 Hh0]%elem_of_dom & Hnew0)
    HUpdate HRebase Hunlock.
  destruct (new_specs_spec fetched updates listing Hl) as [Hnodup Hspecs].
  assert (new_specs fetched listing ≠ []) as Hnew.
  { intros Hnil. pose proof (proj2 (Hspecs (mkTableSpec h0 c0)) (conj Hh0 Hnew0)) as Hin.
    rewrite Hnil in Hin. by apply elem_of_nil in Hin. }
  split; [|split_and!; [done|done|intros; by eapply new_specs_ranged]].
  unfold UpdateManifest, UpdateManifest_locked. run.
  rewrite HFetch. simpl. fold (fetched_or_empty (nbs st) ok contents). fold fetched.
  rewrite add_specs_new. simpl. fold newContents.
  rewrite decide_False by by destruct (new_specs fetched listing).
  simpl. rewrite HUpdate. simpl. rewrite HRebase. simpl. rewrite Hunlock.
  by rewrite <-!app_assoc.
Qed.
End UpdateManifestProperties.

(** ** The calls a Commit makes *)

Section CommitLog.
Context {W : Type} `{Collaborators W}.

Lemma updateManifest_log (current last : Hash) (st : St W) :
  ∃ evs, log (snd (updateManifest current last st)) = log st ++ evs ∧
         Forall (commit_event current) evs ∧
         (fst (updateManifest current last st) = None →
          ∃ lastLock,
            evs = [EvUpdate lastLock (upstream (nbs (snd (updateManifest current last st))))]).
Proof.
  unfold updateManifest. run. destruct st as [n w l]; simpl.
  case_decide; simpl; [exists []; by rewrite app_nil_r|].
  destruct (mm_updateWillFail _ _) as [cached [|]]; simpl.
  { exists []. rewrite app_nil_r.
    repeat (case_match; simplify_eq/=); done. }
  rewrite flush_memtable_above_spec. simpl.
  set (st1 := match mt n with Some _ => _ | None => _ end).
  assert (log st1 = l) as Hl.
  { subst st1. destruct (mt n); [case_decide|]; done. }
  destruct (ConjoinRequired (tables (nbs st1))); simpl.
  - destruct (Conjoin _ _) as [[up [e|]] w1]; simpl.
    + eexists [_]. rewrite Hl. split_and!; [done|by repeat constructor|done].
    + destruct (ts_Rebase _ _ _) as [[ts [e|]] w2]; simpl;
        (eexists [_]; rewrite Hl; split_and!; [done|by repeat constructor|done]).
  - destruct (ts_ToSpecs _ _) as [[sp [e|]] w1]; simpl.
    { exists []. by rewrite app_nil_r, Hl. }
    destruct (mm_Update _ _ _) as [[up [e|]] w2]; simpl.
    { eexists [_]. rewrite Hl. split_and!; [done|by repeat constructor|done]. }
    case_decide; simpl.
    + destruct (ts_Rebase _ _ _) as [[ts [e|]] w3]; simpl;
        [|case_decide; simpl];
        (eexists [_]; rewrite Hl; split_and!; [done|by repeat constructor|done]).
    + destruct (ts_Flatten _) as [ts [e|]]; simpl;
        (eexists [_]; rewrite Hl; split_and!; [done|by repeat constructor|eauto]).
Qed.

Lemma commit_loop_log (fuel : nat) (current last : Hash) (st st' : St W)
    (res : bool * option error) :
  commit_loop fuel current last st = Some (res, st') →
  ∃ evs, log st' = log st ++ evs ∧ Forall (commit_event current) evs ∧
         (fst res = true →
          ∃ evs' lastLock, evs = evs' ++ [EvUpdate lastLock (upstream (nbs st'))]).
Proof.
  revert st. induction fuel as [|fuel IH]; intros st; simpl; [done|].
  destruct (updateManifest_log current last st) as (evs & Hlog & Hevs & Hlast).
  destruct (updateManifest current last st) as [[e|] st1]; simpl in *.
  - repeat case_decide.
    + intros [= <- <-]. exists evs. done.
    + intros [= <- <-]. exists evs. done.
    + intros (evs2 & Hlog2 & Hevs2 & Hlast2)%IH. exists (evs ++ evs2).
      rewrite Hlog2, Hlog, <-app_assoc. split_and!; [done|by apply Forall_app|].
      intros (evs' & lastLock & ->)%Hlast2. exists (evs ++ evs'), lastLock.
      by rewrite <-app_assoc.
  - intros [= <- <-]. exists evs. split_and!; [done|done|].
    intros _. destruct (Hlast eq_refl) as [lastLock ->]. by exists [], lastLock.
Qed.

Lemma unlock_deferred_log (res : bool * option error) (st : St W) :
  log (snd (unlock_deferred res st)) = log st ++ [EvUnlockForUpdate].
Proof.
  run. destruct (mm_UnlockForUpdate (world st)) as [e w].
  by destruct res as [b [e'|]].
Qed.

Lemma commit_entry_log (st : St W) :
  log (commit_entry st) = log st ++ [EvLockForUpdate].
Proof.
  unfold commit_entry. rewrite flush_memtable_above_spec. simpl.
  destruct (mt (nbs st)); [case_decide|]; done.
Qed.

(** X10: a Commit that returns has either made one Fetch and nothing else
    (the fast path), or taken the update lock first and released it last;
    in between it called only Update and Conjoin, and every Update carried
    contents with root [current] and the lock generated from [current] and
    their specs. *)
Theorem Commit_calls (fuel : nat) (current last : Hash) (st st' : St W)
    (res : bool * option error) :
  Commit fuel current last st = Some (res, st') →
  (anyPossiblyNovelChunks (nbs st) = false ∧ current = last ∧
   log st' = log st ++ [EvFetch]) ∨
  (∃ evs, log st' = log st ++ [EvLockForUpdate] ++ evs ++ [EvUnlockForUpdate] ∧
          Forall (commit_event current) evs).
Proof.
  destruct (anyPossiblyNovelChunks (nbs st)) eqn:Hany;
    [|destruct (decide (current = last)) as [->|Hne]].
  - rewrite Commit_slow_path by auto.
    destruct (commit_loop _ _ _ _) as [[res1 st1]|] eqn:E; [|done].
    apply commit_loop_log in E as (evs & Hlog & Hevs & _).
    intros [= Hres]. right. exists evs. split; [|done].
    pose proof (unlock_deferred_log res1 st1) as Hu. rewrite Hres in Hu. simpl in Hu.
    by rewrite Hu, Hlog, commit_entry_log, <-!app_assoc.
  - unfold Commit. rewrite Hany. simpl. rewrite bool_decide_eq_true_2 by done.
    assert (log (snd (Rebase st)) = log st ++ [EvFetch]) as HR.
    { unfold Rebase. run.
      destruct (mm_Fetch (world st)) as [[[ex contents] [e|]] w]; simpl; [done|].
      destruct ex; simpl; [|done]. by destruct (ts_Rebase _ _ _) as [[ts e] w']. }
    destruct (Rebase st) as [[e|] st1]; intros [= <- <-]; left; done.
  - rewrite Commit_slow_path by auto.
    destruct (commit_loop _ _ _ _) as [[res1 st1]|] eqn:E; [|done].
    apply commit_loop_log in E as (evs & Hlog & Hevs & _).
    intros [= Hres]. right. exists evs. split; [|done].
    pose proof (unlock_deferred_log res1 st1) as Hu. rewrite Hres in Hu. simpl in Hu.
    by rewrite Hu, Hlog, commit_entry_log, <-!app_assoc.
Qed.

(** X11: off the fast path, when Commit returns [true] the last call it
    made before releasing the lock was an Update, and the store's upstream
    is the very contents that Update wrote: its root is [current] and its
    lock is the one generated from [current] and its specs. *)
Theorem Commit_success_upstream (fuel : nat) (current last : Hash) (st st' : St W)
    (err : option error) :
  anyPossiblyNovelChunks (nbs st) = true ∨ current ≠ last →
  Commit fuel current last st = Some ((true, err), st') →
  ∃ evs lastLock,
    log st' = log st ++ [EvLockForUpdate] ++ evs
                     ++ [EvUpdate lastLock (upstream (nbs st')); EvUnlockForUpdate] ∧
    root (upstream (nbs st')) = current ∧
    lock (upstream (nbs st')) = generateLockHash current (specs (upstream (nbs st'))).
Proof.
  intros Hslow. rewrite Commit_slow_path by done.
  destruct (commit_loop _ _ _ _) as [[res1 st1]|] eqn:E; [|done].
  apply commit_loop_log in E as (evs & Hlog & Hevs & Hlast).
  rewrite commit_entry_log in Hlog. intros [= Hres].
  pose proof (unlock_deferred_log res1 st1) as Hu.
  pose proof (unlock_deferred_nbs res1 st1) as Hn.
  pose proof (unlock_deferred_success res1 st1) as Hs.
  rewrite Hres in Hu, Hn, Hs. simpl in *.
  destruct (Hlast (eq_sym Hs)) as (evs' & lastLock & ->).
  rewrite Hn. exists evs', lastLock. split.
  - by rewrite Hu, Hlog, <-!app_assoc.
  - apply Forall_app in Hevs as [_ Hupd]. inversion_clear Hupd as [|?? Hx _]. exact Hx.
Qed.
End CommitLog.

Section MoreCommit.
Context {W : Type} `{Collaborators W}.

(** X12: the pre-emptive failure.  When the in-process cache of the
    manifest manager shows the store's lock to be stale and the cached root
    is not [last], Commit returns [false] without any call on the manifest
    but taking and releasing the lock; the store has taken the cached
    contents as its upstream and rebased onto them, and its memtable is as
    the pre-flush left it. *)
Theorem Commit_preemptive_failure (fuel : nat) (current last : Hash) (st : St W)
    (cached : manifestContents) (ts' : tableSet) (unlockErr : option error)
    (w1 w2 : W) :
  anyPossiblyNovelChunks (nbs st) = true ∨ current ≠ last →
  root (upstream (nbs st)) = last →
  mm_updateWillFail (lock (upstream (nbs st))) (mm_LockForUpdate (world st))
    = (cached, true) →
  root cached ≠ last →
  ts_Rebase (tables (nbs (commit_entry st))) (specs cached)
            (mm_LockForUpdate (world st)) = ((ts', None), w1) →
  mm_UnlockForUpdate w1 = (unlockErr, w2) →
  Commit (S fuel) current last st
    = Some ((false, unlockErr),
            mkSt (set_tables ts' (set_upstream cached (nbs (commit_entry st)))) w2
                 (log st ++ [EvLockForUpdate; EvUnlockForUpdate])).
Proof.
  intros Hslow Hroot Hdoomed Hmoved HRebase Hunlock.
  rewrite Commit_slow_path by done.
  assert (world (commit_entry st) = mm_LockForUpdate (world st) ∧
          upstream (nbs (commit_entry st)) = upstream (nbs st)) as [Hw Hu].
  { unfold commit_entry. rewrite flush_memtable_above_spec. simpl.
    destruct (mt (nbs st)); [case_decide|]; done. }
  pose proof (commit_entry_log st) as Hl.
  set (st1 := commit_entry st) in *. clearbody st1.
  destruct st1 as [n1 wl l1]. simpl in *. subst wl l1.
  assert (updateManifest current last
            (mkSt n1 (mm_LockForUpdate (world st)) (log st ++ [EvLockForUpdate]))
          = (Some errOptimisticLockFailedRoot,
             mkSt (set_tables ts' (set_upstream cached n1)) w1
                  (log st ++ [EvLockForUpdate]))) as ->.
  { unfold updateManifest. run. rewrite Hu.
    rewrite decide_False by (intros Hx; by apply Hx). simpl.
    rewrite Hdoomed. simpl. rewrite HRebase. simpl.
    by rewrite decide_True by done. }
  rewrite decide_True by auto. run.
  by rewrite Hunlock, <-app_assoc.
Qed.

(** X13: a store opened with [memTableSize = 0] gets the default budget of
    128 MiB, so the budget of a store is never zero; the store starts
    without a memtable, and its first Put accepts any chunk that is no
    longer than the budget.  Opened where there is no manifest, it has the
    root zero and the version it was opened with. *)
Theorem newNomsBlockStore_budget (nbfVerStr : string) (memTableSize : N) (w : W) :
  let st := snd (newNomsBlockStore nbfVerStr memTableSize w) in
  mtSize (nbs st) = (if decide (memTableSize = 0) then 2 ^ 27 else memTableSize) ∧
  mtSize (nbs st) ≠ 0 ∧
  mt (nbs st) = None ∧ putCount (nbs st) = 0 ∧
  (∀ c, len (data c) <= mtSize (nbs st) → fst (Put c st) = None) ∧
  (∀ contents w', mm_Fetch w = ((false, contents, None), w') →
     newNomsBlockStore nbfVerStr memTableSize w
       = (None, mkSt (mkNBS None newTableSet (mkManifest nbfVerStr 0 0 [])
                            (mtSize (nbs st)) 0) w' [EvFetch])).
Proof.
  intros st.
  assert (mtSize (nbs st) = (if decide (memTableSize = 0) then 2 ^ 27 else memTableSize)
          ∧ mt (nbs st) = None ∧ putCount (nbs st) = 0) as (Hsize & Hmt & Hput).
  { subst st. unfold newNomsBlockStore. run.
    destruct (mm_Fetch w) as [[[ex contents] [e|]] w1]; simpl; [done|].
    destruct ex; simpl; [|done]. by destruct (ts_Rebase _ _ _) as [[ts e] w2]. }
  split_and!; try done.
  - rewrite Hsize. case_decide; lia.
  - intros c Hlen. unfold Put, bind. rewrite addChunk_cases.
    unfold current_memtable. rewrite Hmt.
    apply mt_addChunk_fresh with (h := r c) in Hlen.
    by destruct (mt_addChunk (newMemTable (mtSize (nbs st))) (r c) (data c))
      as [[|] m'].
  - intros contents w' HFetch. rewrite Hsize. unfold newNomsBlockStore. run.
    by rewrite HFetch.
Qed.
End MoreCommit.

(** ** GetChunkLocations: the ranges and what is left of the set *)

Lemma lookupOrdinal_from_bound (ti : tableIndex) (a : addr) (ord : nat) :
  (lookupOrdinal_from ti a ord <= ord + length ti)%nat ∧
  ((lookupOrdinal_from ti a ord < ord + length ti)%nat ↔ a ∈ te_addr <$> ti).
Proof.
  revert ord. induction ti as [|e ti IH]; intros ord; simpl.
  - split; [lia|]. rewrite elem_of_nil. lia.
  - rewrite elem_of_cons. case_decide.
    + split; [lia|]. split; [auto|lia].
    + destruct (IH (S ord)) as [IH1 IH2]. split; [lia|].
      rewrite <-IH2. split; [intros; right; lia|intros [|]; [congruence|lia]].
Qed.

Lemma lookupOrdinal_lt (ti : tableIndex) (a : addr) :
  lookupOrdinal ti a < chunkCount ti ↔ a ∈ te_addr <$> ti.
Proof.
  unfold lookupOrdinal, chunkCount.
  destruct (lookupOrdinal_from_bound ti a 0) as [_ <-]. lia.
Qed.

Lemma findOffsets_elem (ti : tableIndex) (reqs : list getRecord) (o : offsetRec) :
  o ∈ findOffsets ti reqs ↔
  ∃ req, req ∈ reqs ∧ gr_a req ∈ te_addr <$> ti ∧
         o = mkOffsetRec (gr_a req) (lookupOrdinal ti (gr_a req))
                         (offsets ti (lookupOrdinal ti (gr_a req))).
Proof.
  unfold findOffsets. rewrite merge_sort_Permutation, list_elem_of_omap.
  split.
  - intros (req & Hreq & Ho). exists req. case_decide; [|done].
    split_and!; [done|by apply lookupOrdinal_lt|by simplify_eq].
  - intros (req & Hreq & Hin & ->). exists req. split; [done|].
    by rewrite decide_True by by apply lookupOrdinal_lt.
Qed.

Lemma record_ranges_values (ti : tableIndex) (ors : list offsetRec)
    (y : gmap N Range) (hashes : gset N) (a : addr) (rg : Range) :
  fst (foldl (λ '(y, hashes) offsetRec,
                let ord := ordinal offsetRec in
                let length := lengths ti ord in
                let a := or_a offsetRec in
                (<[a := mkRange (offset offsetRec) length]> y, hashes ∖ {[a]}))
             (y, hashes) ors) !! a = Some rg →
  y !! a = Some rg ∨
  ∃ o, o ∈ ors ∧ or_a o = a ∧ rg = mkRange (offset o) (lengths ti (ordinal o)).
Proof.
  revert y hashes. induction ors as [|o ors IH]; intros y hashes; simpl; [auto|].
  intros [Hy|(o' & Ho' & Ha & Hrg)]%IH.
  - destruct (decide (or_a o = a)) as [<-|Hne].
    + rewrite lookup_insert_eq in Hy. injection Hy as <-. right. exists o. set_solver.
    + rewrite lookup_insert_ne in Hy by done. auto.
  - right. exists o'. set_solver.
Qed.

Lemma found_ranges_values (ti : tableIndex) (l : list N)
    (found : list N) (y : gmap N Range) :
  let res := foldl (λ '(foundHashes, y) a,
                     let ord := lookupOrdinal ti a in
                     if decide (ord < chunkCount ti) then
                       (foundHashes ++ [a],
                        <[a := mkRange (offsets ti ord) (lengths ti ord)]> y)
                     else (foundHashes, y))
                  (found, y) l in
  (∀ a, a ∈ fst res ↔ a ∈ found ∨ (a ∈ l ∧ a ∈ te_addr <$> ti)) ∧
  (∀ a, is_Some (snd res !! a) ↔
        is_Some (y !! a) ∨ (a ∈ l ∧ a ∈ te_addr <$> ti)) ∧
  (∀ a rg, snd res !! a = Some rg →
     y !! a = Some rg ∨
     (a ∈ l ∧ a ∈ te_addr <$> ti ∧
      rg = mkRange (offsets ti (lookupOrdinal ti a)) (lengths ti (lookupOrdinal ti a)))).
Proof.
  revert found y. induction l as [|b l IH]; intros found y; simpl.
  - set_solver.
  - pose proof (lookupOrdinal_lt ti b) as Hb. case_decide.
    + destruct (IH (found ++ [b])
                   (<[b := mkRange (offsets ti (lookupOrdinal ti b))
                                   (lengths ti (lookupOrdinal ti b))]> y))
        as (IH1 & IH2 & IH3).
      split_and!.
      * intros a. etransitivity; [apply IH1|]. set_solver.
      * intros a. etransitivity; [apply IH2|].
        rewrite lookup_insert_is_Some'. set_solver.
      * intros a rg [Hy|Hnew]%IH3; [|set_solver].
        destruct (decide (b = a)) as [<-|Hne].
        -- rewrite lookup_insert_eq in Hy. injection Hy as <-. set_solver.
        -- rewrite lookup_insert_ne in Hy by done. auto.
    + destruct (IH found y) as (IH1 & IH2 & IH3). split_and!.
      * intros a. etransitivity; [apply IH1|]. set_solver.
      * intros a. etransitivity; [apply IH2|]. set_solver.
      * intros a rg [Hy|Hnew]%IH3; set_solver.
Qed.

Lemma loc_track_step (requested : gset N) (done : chunkSources) (s : locState)
    (cs : chunkSource) (t0 : addr) (found : list N) (y' : gmap N Range)
    (gr' : list getRecord) :
  let y := default ∅ (loc_ranges s !! t0) in
  let hashes' := loc_hashes s ∖ list_to_set found in
  loc_track requested done s →
  (∀ a, a ∈ found → a ∈ requested ∧ lists cs a) →
  (∀ a, a ∈ loc_hashes s → lists cs a → a ∈ found) →
  (∀ a, is_Some (y' !! a) ↔ is_Some (y !! a) ∨ a ∈ found) →
  (∀ a rg, y' !! a = Some rg →
     y !! a = Some rg ∨ (a ∈ found ∧ located cs t0 a rg)) →
  (∀ req, req ∈ gr' → gr_a req ∈ requested) →
  (∀ h, h ∈ hashes' → ∃ req, req ∈ gr' ∧ gr_a req = h) →
  loc_track requested (done ++ [cs]) (mkLoc hashes' gr' (<[t0 := y']> (loc_ranges s))).
Proof.
  intros y hashes' (Ha & Hb & Hc & Hd & He & Hf) Hfound Hcomplete Hsome Hval Hgr Hcover.
  assert (∀ a rg, y !! a = Some rg →
            ∃ y0, loc_ranges s !! t0 = Some y0 ∧ y0 !! a = Some rg) as Hy.
  { intros a rg. subst y. destruct (loc_ranges s !! t0) as [y0|]; simpl; [eauto|].
    by rewrite lookup_empty. }
  split_and!; simpl.
  - subst hashes'. set_solver.
  - done.
  - done.
  - intros t y1 h rg Ht Hh. destruct (decide (t0 = t)) as [<-|Hne].
    + rewrite lookup_insert_eq in Ht. injection Ht as <-.
      apply Hval in Hh as [(y0 & Hy0 & Hh)%Hy|[Hin Hloc]].
      * destruct (Hd _ _ _ _ Hy0 Hh) as (? & ? & cs' & ? & ?).
        split_and!; [done|subst hashes'; set_solver|].
        exists cs'. set_solver.
      * split_and!; [by apply Hfound|subst hashes'; set_solver|].
        exists cs. set_solver.
    + rewrite lookup_insert_ne in Ht by done.
      destruct (Hd _ _ _ _ Ht Hh) as (? & ? & cs' & ? & ?).
      split_and!; [done|subst hashes'; set_solver|]. exists cs'. set_solver.
  - intros h cs' Hh [Hcs'| ->%list_elem_of_singleton]%elem_of_app.
    + apply He; [|done]. subst hashes'. set_solver.
    + intros Hlists. subst hashes'.
      apply elem_of_difference in Hh as [Hh Hnf]. apply Hnf.
      apply elem_of_list_to_set. by apply Hcomplete.
  - intros h Hh Hnot. destruct (decide (h ∈ loc_hashes s)) as [Hin|Hout].
    + exists t0, y'. rewrite lookup_insert_eq. split; [done|].
      apply Hsome. right. subst hashes'. set_solver.
    + destruct (Hf h Hh Hout) as (t & y0 & Ht & Hsome0).
      destruct (decide (t0 = t)) as [<-|Hne].
      * exists t0, y'. rewrite lookup_insert_eq. split; [done|].
        apply Hsome. left. subst y. by rewrite Ht.
      * exists t, y0. by rewrite lookup_insert_ne.
Qed.

Lemma toGetRecords_elem (hashes : gset N) (a : addr) :
  a ∈ hashes ↔ ∃ req, req ∈ toGetRecords hashes ∧ gr_a req = a.
Proof.
  unfold toGetRecords. setoid_rewrite merge_sort_Permutation.
  setoid_rewrite list_elem_of_fmap. setoid_rewrite elem_of_elements.
  split; [intros Ha; eexists; split; [eexists; split; [done|exact Ha]|done]|].
  by intros (req & (b & -> & Hb) & <-).
Qed.

Lemma probe_source_track (requested : gset N) (done : chunkSources)
    (cs : chunkSource) (s s' : locState) :
  loc_track requested done s → probe_source cs s = inl s' →
  loc_track requested (done ++ [cs]) s'.
Proof.
  intros Htrack. pose proof Htrack as (Ha & Hb & Hc & Hd & He & Hf).
  destruct cs as [t0 ti|t0 [ti|e]|m]; simpl; [| |done|done].
  - case_decide as Hlen.
    + pose proof (record_ranges_spec ti (findOffsets ti (loc_gr s))
                    (default ∅ (loc_ranges s !! t0)) (loc_hashes s)) as Hspec.
      pose proof (record_ranges_values ti (findOffsets ti (loc_gr s))
                    (default ∅ (loc_ranges s !! t0)) (loc_hashes s)) as Hvals.
      simpl in Hspec, Hvals. destruct (foldl _ _ _) as [y' hashes'].
      destruct Hspec as [Hsome Hhashes]. simpl in *. subst hashes'.
      intros [= <-].
      apply (loc_track_step requested done s (mmapTableReader t0 ti) t0
               (or_a <$> findOffsets ti (loc_gr s)) y'); try done.
      * intros a (o & -> & (req & Hreq & Hin & ->)%findOffsets_elem)%list_elem_of_fmap.
        simpl. split; [by apply Hb|done].
      * intros a Hin Hlists. destruct (Hc a Hin) as (req & Hreq & <-).
        apply list_elem_of_fmap. eexists. split; [|apply findOffsets_elem; eauto].
        done.
      * intros a rg [Hy|(o & Ho & <- & ->)]%Hvals; [auto|]. right.
        split; [apply list_elem_of_fmap; eauto|].
        apply findOffsets_elem in Ho as (req & Hreq & Hin & ->). done.
      * intros req Hreq%toGetRecords_fresh. apply Ha. set_solver.
      * intros h. apply toGetRecords_elem.
    + intros [= <-]. clear Htrack.
      assert (findOffsets ti (loc_gr s) = []) as Hnil.
      { destruct (findOffsets ti (loc_gr s)); [done|simpl in Hlen; lia]. }
      split_and!; try done.
      * intros t y h rg Ht Hh. destruct (Hd _ _ _ _ Ht Hh) as (? & ? & cs' & ? & ?).
        split_and!; [done|done|]. exists cs'. set_solver.
      * intros h cs' Hh [Hcs'| ->%list_elem_of_singleton]%elem_of_app; [by apply He|].
        simpl. intros Hlists. destruct (Hc h Hh) as (req & Hreq & <-).
        assert (mkOffsetRec (gr_a req) (lookupOrdinal ti (gr_a req))
                  (offsets ti (lookupOrdinal ti (gr_a req))) ∈ findOffsets ti (loc_gr s))
          as Hin by (apply findOffsets_elem; eauto).
        rewrite Hnil in Hin. by apply elem_of_nil in Hin.
  - pose proof (found_ranges_values ti (elements (loc_hashes s)) []
                  (default ∅ (loc_ranges s !! t0))) as Hspec.
    simpl in Hspec. destruct (foldl _ _ _) as [found y'].
    destruct Hspec as (Hfound & Hsome & Hvals). simpl in *.
    rewrite delete_found_spec. intros [= <-].
    assert (∀ a, a ∈ found ↔ a ∈ loc_hashes s ∧ a ∈ te_addr <$> ti) as Hfound'.
    { intros a. rewrite Hfound, elem_of_elements. set_solver. }
    apply (loc_track_step requested done s (chunkSourceAdapter t0 (inl ti)) t0 found y');
      try done.
    + intros a [Hin Hlists]%Hfound'. split; [by apply Ha|done].
    + intros a Hin Hlists. apply Hfound'. done.
    + intros a. rewrite Hsome, Hfound', elem_of_elements. done.
    + intros a rg [Hy|(Hin & Hlists & ->)]%Hvals; [auto|]. right.
      split; [apply Hfound'; by rewrite <-elem_of_elements|done].
    + intros h Hh. apply Hc. set_solver.
Qed.

Lemma probe_sources_track (requested : gset N) (done css : chunkSources)
    (s s' : locState) :
  loc_track requested done s → probe_sources css s = (None, s') →
  loc_track requested (done ++ css) s'.
Proof.
  revert done s. induction css as [|cs css IH]; intros done s Htrack; simpl.
  - intros [= <-]. by rewrite app_nil_r.
  - destruct (probe_source cs s) as [s1|stop] eqn:E; [|done].
    intros Hrest.
    replace (done ++ cs :: css) with ((done ++ [cs]) ++ css)
      by (by rewrite <-app_assoc).
    eapply IH; [|done]. by eapply probe_source_track.
Qed.

Lemma GetChunkLocations_track (n : NomsBlockStore) (hashes left_ : gset N)
    (ranges : gmap N (gmap N Range)) :
  GetChunkLocations n hashes = (inl ranges, left_) →
  ∃ gr, loc_track hashes (upstream_ts (tables n) ++ novel (tables n))
                  (mkLoc left_ gr ranges).
Proof.
  unfold GetChunkLocations.
  destruct (probe_sources (upstream_ts (tables n)) _) as [[stop|] s1] eqn:E1; [done|].
  destruct (probe_sources (novel (tables n)) s1) as [[stop|] s2] eqn:E2; [done|].
  intros [= <- <-]. exists (loc_gr s2).
  apply (probe_sources_track hashes []) in E1.
  - apply (probe_sources_track hashes _ _ _ _ E1) in E2. by destruct s2.
  - split_and!; simpl.
    + done.
    + intros req. apply toGetRecords_fresh.
    + intros h. apply toGetRecords_elem.
    + intros t y h rg Ht. by rewrite lookup_empty in Ht.
    + intros h cs _ Hin. by apply elem_of_nil in Hin.
    + intros h Hh Hn. by destruct Hn.
Qed.

Lemma located_lists (cs : chunkSource) (t h : addr) (rg : Range) :
  located cs t h rg → lists cs h.
Proof. destruct cs as [t0 ti|t0 [ti|e]|m]; simpl; tauto. Qed.

(** A range, once given, stays: later sources add to the map. *)
Lemma probe_source_assigned (cs : chunkSource) (s s' : locState) (t h : addr) :
  probe_source cs s = inl s' →
  assigned (loc_ranges s) t h → assigned (loc_ranges s') t h.
Proof.
  destruct cs as [t0 ti|t0 [ti|e]|m]; simpl; [| |done|done].
  - case_decide; [|by intros [= <-]].
    pose proof (record_ranges_spec ti (findOffsets ti (loc_gr s))
                  (default ∅ (loc_ranges s !! t0)) (loc_hashes s)) as Hspec.
    simpl in Hspec. destruct (foldl _ _ _) as [y' hashes'].
    destruct Hspec as [Hy' _]. simpl in *.
    intros [= <-] (y & Hy & Hh). simpl.
    destruct (decide (t = t0)) as [->|Hne].
    + exists y'. rewrite lookup_insert_eq. split; [done|].
      apply Hy'. left. by rewrite Hy.
    + exists y. by rewrite lookup_insert_ne.
  - pose proof (found_ranges_spec ti (elements (loc_hashes s)) []
                  (default ∅ (loc_ranges s !! t0))) as Hspec.
    simpl in Hspec. destruct (foldl _ _ _) as [found y'].
    destruct Hspec as (new & _ & _ & Hy'). simpl in *.
    intros [= <-] (y & Hy & Hh). simpl.
    destruct (decide (t = t0)) as [->|Hne].
    + exists y'. rewrite lookup_insert_eq. split; [done|].
      apply Hy'. left. by rewrite Hy.
    + exists y. by rewrite lookup_insert_ne.
Qed.

Lemma probe_sources_assigned (css : chunkSources) (s s' : locState) (t h : addr) :
  probe_sources css s = (None, s') →
  assigned (loc_ranges s) t h → assigned (loc_ranges s') t h.
Proof.
  revert s. induction css as [|cs css IH]; intros s; simpl.
  - by intros [= <-].
  - destruct (probe_source cs s) as [s1|stop] eqn:E; [|done].
    intros Hrest Hs. eapply IH; [done|]. by eapply probe_source_assigned.
Qed.

(** Upstream tables are probed before novel ones: a requested hash that an
    upstream table lists gets its range in an upstream table that lists it. *)
Lemma GetChunkLocations_upstream_first (n : NomsBlockStore) (hashes left_ : gset N)
    (ranges : gmap N (gmap N Range)) :
  GetChunkLocations n hashes = (inl ranges, left_) →
  ∀ h cs, h ∈ hashes → cs ∈ upstream_ts (tables n) → lists cs h →
    ∃ cs' t rg, cs' ∈ upstream_ts (tables n) ∧ located cs' t h rg ∧
                assigned ranges t h.
Proof.
  unfold GetChunkLocations.
  destruct (probe_sources (upstream_ts (tables n)) _) as [[stop|] s1] eqn:E1; [done|].
  destruct (probe_sources (novel (tables n)) s1) as [[stop|] s2] eqn:E2; [done|].
  intros [= <- <-] h cs Hh Hcs Hlists.
  apply (probe_sources_track hashes []) in E1 as (_ & _ & _ & Hd & He & Hf).
  - simpl in *.
    assert (h ∉ loc_hashes s1) as Hout.
    { intros Hin. by apply (He h cs Hin Hcs). }
    destruct (Hf h Hh Hout) as (t & y & Hy & [rg Hrg]).
    destruct (Hd t y h rg Hy Hrg) as (_ & _ & cs' & Hcs' & Hloc).
    exists cs', t, rg. split_and!; [done|done|].
    eapply probe_sources_assigned; [exact E2|]. exists y. eauto.
  - split_and!; simpl.
    + done.
    + intros req. apply toGetRecords_fresh.
    + intros h'. apply toGetRecords_elem.
    + intros t y h' rg Ht. by rewrite lookup_empty in Ht.
    + intros h' cs' _ Hin. by apply elem_of_nil in Hin.
    + intros h' Hh' Hn. by destruct Hn.
Qed.

(** Sources of one kind are in an order in which no mmap-backed reader
    comes after an adapter. *)
Lemma one_kind_adapters_last (css : chunkSources) :
  Forall is_mmap css ∨ Forall is_adapter css → adapters_last css.
Proof.
  induction css as [|cs css IH]; [done|]. intros Hkind. simpl. split.
  - intros Had. destruct Hkind as [Hm|Ha].
    + apply Forall_cons_1 in Hm as [Hm _]. destruct cs; simpl in *; tauto.
    + apply Forall_cons_1 in Ha as [_ Ha].
      eapply Forall_impl; [exact Ha|]. intros cs'. destruct cs'; simpl; tauto.
  - apply IH. destruct Hkind as [[_ ?]%Forall_cons_1|[_ ?]%Forall_cons_1]; auto.
Qed.

(** C10: in a store whose sources are all of one kind (all mmap-backed
    table readers or all adapters, as in every store, which opens its
    tables through its one persister), GetChunkLocations assigns each
    requested hash to at most one table of the map it returns.  A hash
    that has a range was requested and has been deleted from the caller's
    set, which comes back as a part of what it was; and the upstream
    tables are probed before the novel ones: a requested hash that an
    upstream table lists has its one range under an upstream table that
    lists it. *)
Theorem GetChunkLocations_at_most_one_table (n : NomsBlockStore)
    (hashes left_ : gset N) (ranges : gmap N (gmap N Range)) :
  Forall is_mmap (upstream_ts (tables n) ++ novel (tables n)) ∨
  Forall is_adapter (upstream_ts (tables n) ++ novel (tables n)) →
  GetChunkLocations n hashes = (inl ranges, left_) →
  at_most_one_table ranges ∧
  (∀ t h, assigned ranges t h → h ∈ hashes ∧ h ∉ left_) ∧
  left_ ⊆ hashes ∧
  (∀ h cs, h ∈ hashes → cs ∈ upstream_ts (tables n) → lists cs h →
     ∃ cs' t rg, cs' ∈ upstream_ts (tables n) ∧ located cs' t h rg ∧
                 assigned ranges t h ∧ ∀ t', assigned ranges t' h → t' = t).
Proof.
  intros Hkind HG.
  destruct (GetChunkLocations_one_table n hashes left_ ranges
              (one_kind_adapters_last _ Hkind) HG) as [Hone Hout].
  pose proof (GetChunkLocations_track _ _ _ _ HG) as (gr & Ha & _ & _ & Hd & _ & _).
  simpl in *. split_and!.
  - done.
  - intros t h Hth. split; [|by eapply Hout].
    destruct Hth as (y & Hy & [rg Hrg]). by destruct (Hd t y h rg Hy Hrg).
  - intros h. apply Ha.
  - intros h cs Hh Hcs Hlists.
    destruct (GetChunkLocations_upstream_first _ _ _ _ HG h cs Hh Hcs Hlists)
      as (cs' & t & rg & Hcs' & Hloc & Hassigned).
    exists cs', t, rg. split_and!; [done|done|done|].
    intros t' Ht'. by apply (Hone t' t h).
Qed.

(** X15: every range in the map GetChunkLocations returns is right: the
    hash was requested and has been taken out of the caller's set, and the
    table it is filed under is one of the store's sources, whose index
    lists the hash with that offset and that length. *)
Theorem GetChunkLocations_ranges_located (n : NomsBlockStore) (hashes left_ : gset N)
    (ranges : gmap N (gmap N Range)) :
  GetChunkLocations n hashes = (inl ranges, left_) →
  ∀ t y h rg, ranges !! t = Some y → y !! h = Some rg →
    h ∈ hashes ∧ h ∉ left_ ∧
    ∃ cs, cs ∈ upstream_ts (tables n) ++ novel (tables n) ∧ located cs t h rg.
Proof.
  intros (gr & _ & _ & _ & Hd & _)%GetChunkLocations_track. exact Hd.
Qed.

(** X16: what GetChunkLocations leaves in the caller's set are exactly the
    requested hashes that no source lists; every other requested hash has
    a range in the map, and only requested hashes have one. *)
Theorem GetChunkLocations_left (n : NomsBlockStore) (hashes left_ : gset N)
    (ranges : gmap N (gmap N Range)) :
  GetChunkLocations n hashes = (inl ranges, left_) →
  ∀ h, (h ∈ left_ ↔
          h ∈ hashes ∧
          ∀ cs, cs ∈ upstream_ts (tables n) ++ novel (tables n) → ¬ lists cs h) ∧
       ((∃ t, assigned ranges t h) ↔ h ∈ hashes ∧ h ∉ left_).
Proof.
  intros (gr & Ha & _ & _ & Hd & He & Hf)%GetChunkLocations_track h. simpl in *.
  assert ((∃ t, assigned ranges t h) → h ∈ hashes ∧ h ∉ left_ ∧
            ∃ cs, cs ∈ upstream_ts (tables n) ++ novel (tables n) ∧ lists cs h)
    as Hassigned.
  { intros (t & y & Ht & [rg Hrg]). destruct (Hd _ _ _ _ Ht Hrg) as (? & ? & cs & ? & ?).
    split_and!; [done|done|]. exists cs. split; [done|]. by eapply located_lists. }
  split; split.
  - intros Hh. split; [by apply Ha|]. intros cs Hcs. by apply He.
  - intros [Hh Hnone]. destruct (decide (h ∈ left_)) as [|Hout]; [done|].
    destruct (Hassigned (Hf h Hh Hout)) as (_ & _ & cs & Hcs & Hlists).
    by destruct (Hnone cs Hcs).
  - intros Hx. destruct (Hassigned Hx) as (? & ? & _). done.
  - intros [Hh Hout]. by apply Hf.
Qed.

(** X17: in a store whose sources are all mmap-backed table readers, or
    all adapters, GetChunkLocations files every hash under one table
    only. *)
Theorem GetChunkLocations_one_kind (n : NomsBlockStore) (hashes left_ : gset N)
    (ranges : gmap N (gmap N Range)) :
  Forall is_mmap (upstream_ts (tables n) ++ novel (tables n)) ∨
  Forall is_adapter (upstream_ts (tables n) ++ novel (tables n)) →
  GetChunkLocations n hashes = (inl ranges, left_) →
  at_most_one_table ranges.
Proof.
  intros Hkind HG. apply (GetChunkLocations_one_table n hashes left_); [|done].
  induction (upstream_ts (tables n) ++ novel (tables n)) as [|cs css IH]; [done|].
  simpl. split.
  - intros Had. destruct Hkind as [Hm|Ha].
    + apply Forall_cons_1 in Hm as [Hm _]. destruct cs; simpl in *; tauto.
    + apply Forall_cons_1 in Ha as [_ Ha].
      eapply Forall_impl; [exact Ha|]. intros cs'. destruct cs'; simpl; tauto.
  - apply IH. destruct Hkind as [[_ ?]%Forall_cons_1|[_ ?]%Forall_cons_1]; auto.
Qed.

(** X18: once a Put has been made, accepted or not, the store holds a
    memtable, and the next Commit cannot take the fast path, even with
    [current = last]: it enters its loop under the update lock. *)
Theorem Put_then_Commit_locks {W} `{Collaborators W} (c : Chunk) (st : St W)
    (fuel : nat) (current last : Hash) :
  anyPossiblyNovelChunks (nbs (snd (Put c st))) = true ∧
  Commit fuel current last (snd (Put c st)) =
    match commit_loop fuel current last (commit_entry (snd (Put c st))) with
    | None => None
    | Some (res, st3) => Some (unlock_deferred res st3)
    end ∧
  log (commit_entry (snd (Put c st))) = log st ++ [EvLockForUpdate].
Proof.
  assert (is_Some (mt (nbs (snd (Put c st)))) ∧ log (snd (Put c st)) = log st)
    as [[m Hm] Hlog].
  { unfold Put, bind. rewrite addChunk_cases.
    destruct (mt_addChunk (current_memtable (nbs st)) (r c) (data c)) as [[|] m'].
    - simpl. eauto.
    - destruct (mt_addChunk (newMemTable (mtSize (nbs st))) (r c) (data c))
        as [[|] m2]; simpl; eauto. }
  assert (anyPossiblyNovelChunks (nbs (snd (Put c st))) = true) as Hany.
  { unfold anyPossiblyNovelChunks. by rewrite Hm. }
  split_and!; [done|by apply Commit_slow_path; auto|].
  by rewrite commit_entry_log, Hlog.
Qed.

(** ** These properties at work on the example stores *)

Section MoreExamples.
Import Local Stores.
Local Existing Instance sound.

(** The four-byte chunk of the full memtable is still read after the Put
    that rotates the memtable. *)
Lemma Put_keeps_other_reads_witness :
  Get (nbs (snd (Put (NewChunk hashOf (Some threeBytes)) fullMemtable))) (hashOf fourBytes)
    = (NewChunk hashOf (Some fourBytes), None).
Proof.
  destruct (Put_keeps_other_reads (NewChunk hashOf (Some threeBytes)) fullMemtable
              (hashOf fourBytes)) as [HGet _].
  - vm_compute. discriminate.
  - rewrite HGet. reflexivity.
Defined.

Lemma Commit_root_mismatch_keeps_reads_witness :
  ∃ err st', Commit 1 77 5 onePut = Some ((false, err), st') ∧
             Get (nbs st') (hashOf twoBytes) = (NewChunk hashOf (Some twoBytes), None).
Proof.
  destruct (Commit_root_mismatch_keeps_reads 0 77 5 onePut)
    as (err & st' & HCommit & Hreads).
  - left. reflexivity.
  - discriminate.
  - exists err, st'. split; [exact HCommit|].
    destruct (Hreads (hashOf twoBytes)) as [-> _]. reflexivity.
Defined.

Lemma Put_Has_witness : Has (nbs onePut) (hashOf twoBytes) = (true, None).
Proof.
  refine (Put_Has (NewChunk hashOf (Some twoBytes)) (freshSt 4) onePut _). reflexivity.
Defined.

(** Of the two hashes asked for, the store has the one that was put. *)
Lemma HasMany_agrees_with_Has_witness :
  Has (nbs onePut) 9 = (false, None) ∧
  Has (nbs onePut) (hashOf twoBytes) = (true, None).
Proof.
  assert (HasMany (nbs onePut) {[hashOf twoBytes; 9]} = (Some {[9]}, None)) as HM.
  { vm_compute. reflexivity. }
  pose proof (HasMany_agrees_with_Has _ _ _ HM) as Hagree. split.
  - destruct (Hagree 9) as [[Hin _] _]. apply Hin. vm_compute. reflexivity.
  - destruct (Hagree (hashOf twoBytes)) as [_ Hhas]. apply Hhas.
    + vm_compute. reflexivity.
    + vm_compute. discriminate.
Defined.

(** The memtable answers for the chunk that was put; the table whose index
    cannot be loaded is not asked. *)
Lemma HasMany_memtable_only_witness :
  HasMany brokenAdapter {[hashOf twoBytes]} = (Some ∅, None) ∧
  Has brokenAdapter 9 = (false, Some (errIO 3)).
Proof.
  split; [|reflexivity].
  apply HasMany_memtable_only. intros h Hh.
  apply elem_of_singleton in Hh as ->.
  eexists. split; [reflexivity|]. vm_compute. eauto.
Defined.

Lemma Put_Rebase_Get_witness :
  Get (nbs (snd (Rebase (with_manifest onePut)))) (hashOf twoBytes)
    = (NewChunk hashOf (Some twoBytes), None).
Proof.
  assert (Put (NewChunk hashOf (Some twoBytes)) (with_manifest (freshSt 4))
          = (None, with_manifest onePut)) as HPut by reflexivity.
  destruct (Put_Rebase_Get (NewChunk hashOf (Some twoBytes)) [] _ _ HPut)
    as [HGet _].
  destruct HGet as [HGet _]; [discriminate|]. exact HGet.
Defined.

(** The manifest names table 100 already: nothing is written. *)
Lemma UpdateManifest_nothing_new_witness :
  ∃ w, UpdateManifest [(100, 1)] (with_manifest (freshSt 4))
       = ((naming100, None),
          mkSt (freshStore 4) w [EvLockForUpdate; EvFetch; EvUnlockForUpdate]).
Proof.
  eassert (mm_Fetch (mm_LockForUpdate (world (with_manifest (freshSt 4))))
           = ((true, naming100, None), _)) as HFetch by reflexivity.
  eassert (mm_UnlockForUpdate _ = (None, _)) as Hunlock by reflexivity.
  assert (ranged {[100 := 1]} [(100, 1)]) as Hl.
  { unfold ranged. rewrite map_to_list_singleton. reflexivity. }
  eexists.
  refine (UpdateManifest_nothing_new {[100 := 1]} [(100, 1)] (with_manifest (freshSt 4))
            true naming100 None _ _ Hl HFetch _ Hunlock).
  intros h Hh. rewrite dom_singleton_L in Hh. apply elem_of_singleton in Hh as ->.
  simpl. apply list_elem_of_singleton. reflexivity.
Defined.

(** Tables 300 and 200 are new: they are appended after table 100 in the
    order in which the updates are listed, under the lock that was
    fetched.  There is no file for table 300: the Rebase fails, and the
    call reports no error. *)
Lemma UpdateManifest_appends_witness :
  ∃ st', UpdateManifest [(300, 3); (100, 1); (200, 2)] (with_manifest (freshSt 4))
         = ((mkManifest "7.18" 999 9
               [mkTableSpec 100 1; mkTableSpec 300 3; mkTableSpec 200 2], None), st') ∧
         upstream (nbs st')
           = mkManifest "7.18" 999 9
               [mkTableSpec 100 1; mkTableSpec 300 3; mkTableSpec 200 2] ∧
         tables (nbs st') = newTableSet.
Proof.
  assert (ranged {[100 := 1; 200 := 2; 300 := 3]} [(300, 3); (100, 1); (200, 2)])
    as Hl.
  { unfold ranged. apply NoDup_Permutation.
    - apply (bool_decide_unpack _). vm_compute. exact I.
    - apply NoDup_map_to_list.
    - intros [h count]. rewrite elem_of_map_to_list.
      rewrite !elem_of_cons, elem_of_nil.
      rewrite !lookup_insert_Some, lookup_singleton_Some. naive_solver. }
  eassert (mm_Fetch (mm_LockForUpdate (world (with_manifest (freshSt 4))))
           = ((true, naming100, None), _)) as HFetch by reflexivity.
  lazymatch type of HFetch with
  | _ = (_, ?w1) =>
      eassert (mm_Update 999 (mkManifest "7.18" 999 9
                                ([mkTableSpec 100 1]
                                   ++ [mkTableSpec 300 3; mkTableSpec 200 2])) w1
               = ((_, None), _)) as HUpdate by reflexivity
  end.
  lazymatch type of HUpdate with
  | _ = (_, ?w2) =>
      eassert (ts_Rebase (tables (nbs (with_manifest (freshSt 4))))
                         ([mkTableSpec 100 1] ++ [mkTableSpec 300 3; mkTableSpec 200 2])
                         w2
               = ((_, _), _)) as HRebase by reflexivity
  end.
  lazymatch type of HRebase with
  | _ = (_, ?w3) =>
      eassert (mm_UnlockForUpdate w3 = (None, _)) as Hunlock by reflexivity
  end.
  epose proof (UpdateManifest_appends {[100 := 1; 200 := 2; 300 := 3]}
                 [(300, 3); (100, 1); (200, 2)] (with_manifest (freshSt 4))
                 true naming100 _ _ _ None _ _ _ _ Hl HFetch) as HX.
  assert (∃ h, h ∈ dom ({[100 := 1; 200 := 2; 300 := 3]} : gmap N N) ∧
               h ∉ name <$> specs (fetched_or_empty (nbs (with_manifest (freshSt 4)))
                                                    true naming100)) as Hnew.
  { exists 200. split; [set_solver|].
    simpl. intros Hin%list_elem_of_singleton. discriminate. }
  destruct (HX Hnew HUpdate HRebase Hunlock) as [HUM _].
  eexists. split; [exact HUM|split; reflexivity].
Defined.

Lemma Commit_calls_witness :
  ∃ st', Commit 1 77 0 onePut = Some ((true, None), st') ∧
         ∃ evs, log st' = [EvLockForUpdate] ++ evs ++ [EvUnlockForUpdate] ∧
                Forall (commit_event 77) evs.
Proof.
  eassert (Commit 1 77 0 onePut = Some ((true, None), _)) as HCommit.
  { vm_compute. reflexivity. }
  eexists. split; [exact HCommit|].
  destruct (Commit_calls _ _ _ _ _ _ HCommit) as [(Hfast & _)|Hslow].
  - vm_compute in Hfast. discriminate.
  - exact Hslow.
Defined.

Lemma Commit_success_upstream_witness :
  ∃ st', Commit 1 77 0 onePut = Some ((true, None), st') ∧
         lock (upstream (nbs st')) = lockHash 77 (specs (upstream (nbs st'))).
Proof.
  eassert (Commit 1 77 0 onePut = Some ((true, None), _)) as HCommit.
  { vm_compute. reflexivity. }
  eexists. split; [exact HCommit|].
  destruct (Commit_success_upstream 1 77 0 onePut _ None (or_introl eq_refl) HCommit)
    as (evs & l & _ & _ & Hlock).
  exact Hlock.
Defined.

(** The cache knows of the root 9: the Commit on root 0 fails without a
    call on the manifest. *)
Lemma Commit_preemptive_failure_witness :
  ∃ st', Commit 1 77 0 (stale onePut) = Some ((false, None), st') ∧
         log st' = [EvLockForUpdate; EvUnlockForUpdate] ∧
         upstream (nbs st') = theirs 9.
Proof.
  eassert (ts_Rebase (tables (nbs (commit_entry (stale onePut)))) (specs (theirs 9))
                     (mm_LockForUpdate (world (stale onePut))) = ((_, None), _))
    as HRebase by reflexivity.
  eassert (mm_UnlockForUpdate _ = (None, _)) as Hunlock by reflexivity.
  eexists. split_and!.
  - refine (Commit_preemptive_failure 0 77 0 (stale onePut) (theirs 9) _ None _ _
              _ _ _ _ HRebase Hunlock).
    + left. reflexivity.
    + reflexivity.
    + reflexivity.
    + discriminate.
  - reflexivity.
  - reflexivity.
Defined.

Lemma newNomsBlockStore_budget_witness :
  mtSize (nbs (snd (newNomsBlockStore "7.18" 0 emptyWorld))) = 134217728 ∧
  fst (Put (NewChunk hashOf (Some fourBytes)) (snd (newNomsBlockStore "7.18" 0 emptyWorld)))
    = None.
Proof.
  destruct (newNomsBlockStore_budget "7.18" 0 emptyWorld)
    as (Hsize & _ & _ & _ & HPut & _).
  split; [exact Hsize|]. apply HPut. rewrite Hsize. vm_compute. discriminate.
Defined.

(** Chunk 5 is in both tables and is filed under the first; chunk 6 is
    filed under the second; chunk 7 is in neither and stays in the set. *)
Lemma GetChunkLocations_ranges_located_witness :
  ∃ ranges, GetChunkLocations twoTables {[5; 6; 7]} = (inl ranges, {[7]}) ∧
            ranges !! 200 = Some {[6 := mkRange 10 20]} ∧
            ∃ cs, cs ∈ upstream_ts (tables twoTables) ∧ located cs 200 6 (mkRange 10 20).
Proof.
  eassert (GetChunkLocations twoTables {[5; 6; 7]} = (inl _, {[7]})) as HG.
  { vm_compute. reflexivity. }
  eexists. split; [exact HG|]. split; [vm_compute; reflexivity|].
  destruct (GetChunkLocations_ranges_located _ _ _ _ HG 200 {[6 := mkRange 10 20]} 6
              (mkRange 10 20)) as (_ & _ & cs & Hcs & Hloc).
  - vm_compute. reflexivity.
  - vm_compute. reflexivity.
  - exists cs. split; [exact Hcs|exact Hloc].
Defined.

Lemma GetChunkLocations_left_witness :
  ¬ lists (mmapTableReader 200 [entry5; entry6]) 7.
Proof.
  eassert (GetChunkLocations twoTables {[5; 6; 7]} = (inl _, {[7]})) as HG.
  { vm_compute. reflexivity. }
  destruct (GetChunkLocations_left _ _ _ _ HG 7) as [[Hleft _] _].
  apply Hleft.
  - apply elem_of_singleton. reflexivity.
  - simpl. repeat constructor.
Defined.

(** Chunk 5 is in both tables of the store; it is filed under the first,
    and under the first only. *)
Lemma GetChunkLocations_at_most_one_table_witness :
  ∃ ranges, GetChunkLocations twoTables {[5; 6; 7]} = (inl ranges, {[7]}) ∧
            assigned ranges 100 5 ∧ ¬ assigned ranges 200 5 ∧
            ¬ assigned ranges 100 7 ∧ ¬ assigned ranges 200 7.
Proof.
  eassert (GetChunkLocations twoTables {[5; 6; 7]} = (inl _, {[7]})) as HG.
  { vm_compute. reflexivity. }
  assert (Forall is_mmap (upstream_ts (tables twoTables) ++ novel (tables twoTables)))
    as Hkind by repeat constructor.
  destruct (GetChunkLocations_at_most_one_table twoTables _ _ _ (or_introl Hkind) HG)
    as (Hone & Hout & _ & Hfirst).
  destruct (Hfirst 5 (mmapTableReader 100 [entry5])) as (cs' & t & rg & _ & _ & H5 & Ht).
  { set_solver. }
  { simpl. set_solver. }
  { simpl. set_solver. }
  assert (t = 100) as ->.
  { symmetry. apply Ht. eexists. split; [vm_compute; reflexivity|].
    eexists. vm_compute. reflexivity. }
  eexists. split; [exact HG|]. split_and!.
  - exact H5.
  - intros H200. specialize (Ht 200 H200). discriminate.
  - intros H7. destruct (Hout 100 7 H7) as [_ Hn]. apply Hn. set_solver.
  - intros H7. destruct (Hout 200 7 H7) as [_ Hn]. apply Hn. set_solver.
Defined.

Lemma GetChunkLocations_one_kind_witness :
  ∃ ranges, GetChunkLocations twoTables {[5; 6; 7]} = (inl ranges, {[7]}) ∧
            at_most_one_table ranges.
Proof.
  eassert (GetChunkLocations twoTables {[5; 6; 7]} = (inl _, {[7]})) as HG.
  { vm_compute. reflexivity. }
  eexists. split; [exact HG|].
  refine (GetChunkLocations_one_kind twoTables _ _ _ _ HG).
  left. repeat constructor.
Defined.
End MoreExamples.
